(** * paralympics REST API: the route handlers of [paralympics/routes.py]

    The handlers are embedded in a small state-and-exception monad over a
    SQLAlchemy-like session (an identity map of ORM objects in front of the
    durable tables) and a marshmallow-like schema layer.  The Flask layer
    ([errorhandler]s, default 500) is modelled by [full_dispatch_request]. *)

From Stdlib Require Import ZArith Lia.
From stdpp Require Import base option list strings gmap pretty.

Set Default Proof Using "Type".
#[local] Set Warnings "-register-all".

(** ** JSON values and Python scalars *)

Inductive scalar :=
  | SBool (b : bool)
  | SInt (z : Z)
  | SStr (s : string).

#[global] Instance scalar_eq_dec : EqDecision scalar.
Proof. solve_decision. Defined.

(** A Python attribute or SQL cell: [None] is Python's [None] / SQL NULL. *)
Abbreviation cell := (option scalar).

Inductive json :=
  | JNull
  | JVal (v : scalar)
  | JArr (items : list json)
  | JObj (members : list (string * json)).

Abbreviation JStr s := (JVal (SStr s)).

Definition json_of_cell (c : cell) : json :=
  match c with Some v => JVal v | None => JNull end.

(** [str(x)] as used by f-strings. *)
Definition py_str (c : cell) : string :=
  match c with
  | None => "None"
  | Some (SBool true) => "True"
  | Some (SBool false) => "False"
  | Some (SInt z) => pretty z
  | Some (SStr s) => s
  end.

(** [dict.get] on a parsed JSON object: the first binding of the key. *)
Fixpoint assoc {A} (k : string) (l : list (string * A)) : option A :=
  match l with
  | [] => None
  | (k', v) :: l' => if decide (k = k') then Some v else assoc k l'
  end.

(** ** Models and schemas *)

(** The two mapped tables ([__tablename__]). *)
Inductive entity := region_table | event_table.

#[global] Instance entity_eq_dec : EqDecision entity.
Proof. solve_decision. Defined.

(** One mapped column together with the schema field generated for it:
    a required attribute is NOT NULL in the table and [required] in the
    schema, an optional one is nullable and accepts [null]. *)
Record attribute := {
  a_name : string;
  a_required : bool;
  a_decode : json → option scalar;   (* the field's type check *)
  a_reason : string                  (* its error message *)
}.

Record model := {
  m_entity : entity;
  m_pk : string;                     (* name of the primary-key column *)
  m_generated : bool;                (* key assigned by the store on INSERT *)
  m_fields : list attribute          (* the columns a payload may carry *)
}.

Definition field_names (m : model) : list string := a_name <$> m_fields m.

(** All mapped columns: a store-generated key is a column, not a load field. *)
Definition columns (m : model) : list string :=
  if m_generated m then m_pk m :: field_names m else field_names m.

Definition decode_string (j : json) : option scalar :=
  match j with JVal (SStr s) => Some (SStr s) | _ => None end.

Definition text_attribute (name : string) (required : bool) : attribute :=
  {| a_name := name; a_required := required;
     a_decode := decode_string; a_reason := "Not a valid string." |}.

(** Modelled from the spec: [paralympics/models.py] and
    [paralympics/schemas.py] are not among the sources.  Section 3 gives
    Region the primary key [NOC] (string), the required attribute [region]
    and the optional text [notes]. *)
Definition Region : model :=
  {| m_entity := region_table; m_pk := "NOC"; m_generated := false;
     m_fields := [ text_attribute "NOC" true;
                   text_attribute "region" true;
                   text_attribute "notes" false ] |}.

Record Schema := { s_model : model; s_many : bool }.

(** ** Validation (marshmallow [Schema.load] before [post_load]) *)

Definition messages := list (string * list string).

(** [Field.deserialize] for one field of the payload. [None] in the result
    is marshmallow's [missing]: nothing is stored for the field. *)
Definition deserialize_field (a : attribute) (partial : bool)
    (raw : option json) : string + option cell :=
  match raw with
  | None =>
      if partial then inr None
      else if a_required a then inl "Missing data for required field."
      else inr None
  | Some JNull =>
      if a_required a then inl "Field may not be null." else inr (Some None)
  | Some j =>
      match a_decode a j with
      | Some v => inr (Some (Some v))
      | None => inl (a_reason a)
      end
  end.

Fixpoint deserialize_fields (fs : list attribute) (partial : bool)
    (data : list (string * json)) : messages * list (string * cell) :=
  match fs with
  | [] => ([], [])
  | a :: fs' =>
      let '(errs, vals) := deserialize_fields fs' partial data in
      match deserialize_field a partial (assoc (a_name a) data) with
      | inl reason => ((a_name a, [reason]) :: errs, vals)
      | inr None => (errs, vals)
      | inr (Some c) => (errs, (a_name a, c) :: vals)
      end
  end.

(** Keys of the payload that are no load field ([unknown = RAISE]). *)
Definition unknown_fields (fs : list attribute) (data : list (string * json))
    : messages :=
  (λ k, (k, ["Unknown field."])) <$>
    filter (λ k, k ∉ a_name <$> fs) (remove_dups (fst <$> data)).

Definition validate (fs : list attribute) (partial : bool) (data : json)
    : messages + list (string * cell) :=
  match data with
  | JObj members =>
      let '(errs, vals) := deserialize_fields fs partial members in
      match errs ++ unknown_fields fs members with
      | [] => inr vals
      | errors => inl errors
      end
  | _ => inl [("_schema", ["Invalid input type."])]
  end.

(** ** The session: durable tables, identity map, commit counter *)

Abbreviation row := (gmap string scalar).

Record database := { regions : list row; events : list row }.

Definition table (e : entity) (d : database) : list row :=
  match e with region_table => regions d | event_table => events d end.

Definition set_table (e : entity) (t : list row) (d : database) : database :=
  match e with
  | region_table => {| regions := t; events := events d |}
  | event_table => {| regions := regions d; events := t |}
  end.

Inductive ostate := Transient | Pending | Persistent | Deleted | Detached.

#[global] Instance ostate_eq_dec : EqDecision ostate.
Proof. solve_decision. Defined.

(** An ORM object. [o_key] is the key of the row it was loaded from. *)
Record object := {
  o_model : model;
  o_state : ostate;
  o_key : cell;
  o_dirty : bool;
  o_attrs : row
}.

Abbreviation ref := nat.

Record session := {
  db : database;          (* what is durable and visible to other requests *)
  heap : list object;     (* the objects of this request, by reference *)
  commits : nat           (* completed [db.session.commit()] calls *)
}.

Definition set_heap (h : list object) (s : session) : session :=
  {| db := db s; heap := h; commits := commits s |}.

Inductive exn :=
  | NoResultFound
  | MultipleResultsFound
  | InvalidRequestError
  | IntegrityError
  | AttributeError
  | TypeError
  | ValidationError (errors : messages)
  | HTTPException (code : nat) (description : string).  (* from [abort] *)

Inductive result (A : Type) :=
  | Return (a : A)
  | Raise (e : exn).
Arguments Return {A} a.
Arguments Raise {A} e.

Definition M (A : Type) : Type := session → result A * session.

Definition ret {A} (a : A) : M A := λ s, (Return a, s).
Definition raise {A} (e : exn) : M A := λ s, (Raise e, s).
Definition bind {A B} (m : M A) (k : A → M B) : M B :=
  λ s, match m s with
       | (Return a, s') => k a s'
       | (Raise e, s') => (Raise e, s')
       end.

Notation "'let*' x := m 'in' k" := (bind m (λ x, k))
  (at level 10, x name, m at level 100, k at level 200,
   format "'[v' 'let*'  x  :=  m  'in' '/' k ']'").
Notation "m >> k" := (bind m (λ _, k))
  (at level 100, k at level 200, right associativity).

(** [try: body except <handled>: ...]: [handler e = None] re-raises. *)
Definition try_except {A} (body : M A) (handler : exn → option (M A)) : M A :=
  λ s, match body s with
       | (Return a, s') => (Return a, s')
       | (Raise e, s') =>
           match handler e with
           | Some h => h s'
           | None => (Raise e, s')
           end
       end.

Fixpoint mapM {A B} (f : A → M B) (l : list A) : M (list B) :=
  match l with
  | [] => ret []
  | x :: l' => let* y := f x in let* ys := mapM f l' in ret (y :: ys)
  end.

(** ** Session primitives *)

Definition alloc (o : object) : M ref :=
  λ s, (Return (length (heap s)), set_heap (heap s ++ [o]) s).

Definition deref (r : ref) : M object :=
  λ s, match heap s !! r with
       | Some o => (Return o, s)
       | None => (Raise AttributeError, s)
       end.

Definition update (r : ref) (f : object → object) : M unit :=
  λ s, match heap s !! r with
       | Some o => (Return (), set_heap (<[r := f o]> (heap s)) s)
       | None => (Raise AttributeError, s)
       end.

(** [obj.name]; reading an attribute of [None] raises. *)
Definition getattr (r : option ref) (name : string) : M cell :=
  match r with
  | Some r => let* o := deref r in ret (o_attrs o !! name)
  | None => raise AttributeError
  end.

Definition set_cell (name : string) (c : cell) (a : row) : row :=
  match c with Some v => <[name := v]> a | None => delete name a end.

Definition set_cells (vals : list (string * cell)) (a : row) : row :=
  foldl (λ a kv, set_cell kv.1 kv.2 a) a vals.

(** [setattr(obj, name, c)]: the session sees the change (the object is
    the one in its identity map), so it is flushed by the next commit. *)
Definition setattr (r : ref) (name : string) (c : cell) : M unit :=
  update r (λ o, {| o_model := o_model o; o_state := o_state o;
                    o_key := o_key o; o_dirty := true;
                    o_attrs := set_cell name c (o_attrs o) |}).

(** A select statement: [db.select(Model)] with an optional [filter_by]. *)
Inductive statement :=
  | Select (m : model)
  | SelectFilterBy (m : model) (col : string) (v : cell).

Definition select (m : model) : statement := Select m.

(** [stmt.filter_by(col=v)]: an unknown attribute name is an error. *)
Definition filter_by (col : string) (v : cell) (st : statement) : M statement :=
  match st with
  | Select m | SelectFilterBy m _ _ =>
      if decide (col ∈ columns m) then ret (SelectFilterBy m col v)
      else raise InvalidRequestError
  end.

Definition matching (col : string) (v : cell) (t : list row) : list row :=
  filter (λ r, r !! col = v) t.

(** [db.session.execute(stmt)]: the rows selected, still to be fetched. *)
Definition execute (st : statement) : M (model * list row) :=
  λ s, match st with
       | Select m => (Return (m, table (m_entity m) (db s)), s)
       | SelectFilterBy m col v =>
           (Return (m, matching col v (table (m_entity m) (db s))), s)
       end.

(** Fetching a row gives the object of the identity map for its key, or a
    new persistent object. *)
Definition identify (m : model) (r : row) : M ref :=
  λ s, match list_find (λ o, m_entity (o_model o) = m_entity m
                             ∧ o_state o = Persistent
                             ∧ o_key o = r !! m_pk m) (heap s) with
       | Some (i, _) => (Return i, s)
       | None => alloc {| o_model := m; o_state := Persistent;
                          o_key := r !! m_pk m; o_dirty := false;
                          o_attrs := r |} s
       end.

Definition scalars (res : model * list row) : M (list ref) :=
  mapM (identify res.1) res.2.

Definition scalar_one (res : model * list row) : M ref :=
  match res.2 with
  | [] => raise NoResultFound
  | [r] => identify res.1 r
  | _ => raise MultipleResultsFound
  end.

Definition scalar_one_or_none (res : model * list row) : M (option ref) :=
  match res.2 with
  | [] => ret None
  | [r] => let* x := identify res.1 r in ret (Some x)
  | _ => raise MultipleResultsFound
  end.

Definition first (res : model * list row) : M (option ref) :=
  match res.2 with
  | [] => ret None
  | r :: _ => let* x := identify res.1 r in ret (Some x)
  end.

(** [db.session.add(obj)]: a new object becomes pending; an object that
    is already in the session stays as it is. *)
Definition session_add (r : ref) : M unit :=
  update r (λ o, match o_state o with
                 | Transient =>
                     {| o_model := o_model o; o_state := Pending;
                        o_key := o_key o; o_dirty := o_dirty o;
                        o_attrs := o_attrs o |}
                 | _ => o
                 end).

(** [db.session.delete(obj)]. *)
Definition session_delete (r : ref) : M unit :=
  let* o := deref r in
  match o_state o with
  | Persistent =>
      update r (λ o, {| o_model := o_model o; o_state := Deleted;
                        o_key := o_key o; o_dirty := o_dirty o;
                        o_attrs := o_attrs o |})
  | _ => raise InvalidRequestError
  end.

(** *** Flush and commit *)

Definition row_id (pk : string) (r : row) : Z :=
  match r !! pk with Some (SInt z) => z | _ => 0%Z end.

(** The key a store-generated integer column gets: 1 on an empty table, else
    one above the largest stored one (which may be negative). *)
Definition next_id (pk : string) (t : list row) : Z :=
  match row_id pk <$> t with
  | [] => 1%Z
  | z :: zs => (1 + foldr Z.max z zs)%Z
  end.

(** NOT NULL on the key and on the required columns. *)
Definition not_null_ok (m : model) (a : row) : bool :=
  bool_decide (a !! m_pk m ≠ None)
  && forallb (λ f, negb (a_required f) || bool_decide (a !! a_name f ≠ None))
             (m_fields m).

Definition key_free (m : model) (k : cell) (t : list row) : bool :=
  bool_decide (matching (m_pk m) k t = []).

Definition with_state (st : ostate) (k : cell) (a : row) (o : object) : object :=
  {| o_model := o_model o; o_state := st; o_key := k; o_dirty := false;
     o_attrs := a |}.

(** What the flush emits for one object; [None] is an integrity error. *)
Definition flush_object (o : object) (d : database) : option (object * database) :=
  let m := o_model o in
  let t := table (m_entity m) d in
  match o_state o with
  | Pending =>
      let a := if m_generated m && bool_decide (o_attrs o !! m_pk m = None)
               then <[m_pk m := SInt (next_id (m_pk m) t)]> (o_attrs o)
               else o_attrs o in
      if not_null_ok m a && key_free m (a !! m_pk m) t
      then Some (with_state Persistent (a !! m_pk m) a o,
                 set_table (m_entity m) (t ++ [a]) d)
      else None
  | Persistent =>
      if o_dirty o then
        let a := o_attrs o in
        if not_null_ok m a
           && (bool_decide (a !! m_pk m = o_key o) || key_free m (a !! m_pk m) t)
        then Some (with_state Persistent (a !! m_pk m) a o,
                   set_table (m_entity m)
                     ((λ r, if decide (r !! m_pk m = o_key o) then a else r) <$> t) d)
        else None
      else Some (o, d)
  | Deleted =>
      Some (with_state Detached (o_key o) (o_attrs o) o,
            set_table (m_entity m)
              (filter (λ r, r !! m_pk m ≠ o_key o) t) d)
  | Transient | Detached => Some (o, d)
  end.

Fixpoint flush (os : list object) (d : database) : option (list object * database) :=
  match os with
  | [] => Some ([], d)
  | o :: os' =>
      match flush_object o d with
      | Some (o', d') =>
          match flush os' d' with
          | Some (os'', d'') => Some (o' :: os'', d'')
          | None => None
          end
      | None => None
      end
  end.

(** [db.session.commit()]: all or nothing. *)
Definition session_commit : M unit :=
  λ s, match flush (heap s) (db s) with
       | Some (h, d) =>
           (Return (), {| db := d; heap := h; commits := S (commits s) |})
       | None => (Raise IntegrityError, s)
       end.

(** ** The schema layer on top of the session (marshmallow-sqlalchemy) *)

(** The stored row with the payload's primary key, when the payload has one. *)
Definition get_instance (m : model) (valid : list (string * cell)) : M (option ref) :=
  match assoc (m_pk m) valid with
  | Some (Some k) =>
      let* st := filter_by (m_pk m) (Some k) (select m) in
      let* res := execute st in
      first res
  | _ => ret None
  end.

(** [post_load]: the merge target is [instance], else the stored row with
    the payload's key; only when there is neither is a new object built. *)
Definition make_instance (m : model) (instance : option ref)
    (valid : list (string * cell)) : M ref :=
  let* existing := match instance with
                   | Some r => ret (Some r)
                   | None => get_instance m valid
                   end in
  match existing with
  | Some r => mapM (λ kv, setattr r kv.1 kv.2) valid >> ret r
  | None => alloc {| o_model := m; o_state := Transient; o_key := None;
                     o_dirty := false; o_attrs := set_cells valid ∅ |}
  end.

(** [schema.load(data, instance=..., partial=...)]. *)
Definition load (sch : Schema) (data : json) (instance : option ref)
    (partial : bool) : M ref :=
  match validate (m_fields (s_model sch)) partial data with
  | inl errors => raise (ValidationError errors)
  | inr valid => make_instance (s_model sch) instance valid
  end.

Definition dump_row (m : model) (a : row) : json :=
  JObj ((λ c, (c, json_of_cell (a !! c))) <$> columns m).

(** Dumping [None] finds no attribute at all and gives the empty object. *)
Definition dump_one (m : model) (r : option ref) : M json :=
  match r with
  | Some r => let* o := deref r in ret (dump_row m (o_attrs o))
  | None => ret (JObj [])
  end.

Inductive target := One (r : option ref) | Many (rs : list ref).

(** [schema.dump(obj)]; a [many=True] schema dumps a collection. *)
Definition dump (sch : Schema) (t : target) : M json :=
  match s_many sch, t with
  | false, One r => dump_one (s_model sch) r
  | true, Many rs =>
      let* items := mapM (λ r, dump_one (s_model sch) (Some r)) rs in
      ret (JArr items)
  | _, _ => raise TypeError
  end.

(** ** The Flask layer *)

Definition response : Type := json * nat.

Definition abort {A} (code : nat) (description : string) : M A :=
  raise (HTTPException code description).

(** [str(e)] of a werkzeug HTTP exception: code, name and description. *)
Definition http_name (code : nat) : string :=
  if decide (code = 404) then "Not Found" else "Unknown Error".

Definition str (e : exn) : string :=
  match e with
  | HTTPException code description =>
      pretty code ++ " " ++ http_name code ++ ": " ++ description
  | _ => ""
  end.

Definition jsonify_messages (errors : messages) : json :=
  JObj ((λ kv, (kv.1, JArr ((λ reason, JStr reason) <$> kv.2))) <$> errors).

(** What the client gets: a JSON response, or an HTML error page when no
    handler of the application took the exception (500 for any exception
    that is not an HTTP one). *)
Inductive reply :=
  | Response (status : nat) (body : json)
  | ErrorPage (status : nat) (cause : exn).

Definition status_of (r : reply) : nat :=
  match r with Response st _ | ErrorPage st _ => st end.

(** ** [routes.py] *)

(** [@app.errorhandler(404)] *)
Definition resource_not_found (e : exn) : response :=
  (JObj [("error", JStr (str e))], 404).

(** [@app.errorhandler(ValidationError)] *)
Definition handle_validation_error (error : exn) : M response :=
  match error with
  | ValidationError errors => ret (jsonify_messages errors, 400)
  | _ => raise AttributeError
  end.

(** Flask runs the view and hands an exception to the registered handlers. *)
Definition full_dispatch_request (view : M response) (s : session)
    : reply * session :=
  match view s with
  | (Return (body, status), s') => (Response status body, s')
  | (Raise e, s') =>
      match e with
      | HTTPException code _ =>
          if decide (code = 404)
          then let '(body, status) := resource_not_found e in
               (Response status body, s')
          else (ErrorPage code e, s')
      | ValidationError _ =>
          match handle_validation_error e s' with
          | (Return (body, status), s'') => (Response status body, s'')
          | (Raise e', s'') => (ErrorPage 500 e', s'')
          end
      | _ => (ErrorPage 500 e, s')
      end
  end.

Definition message (text : string) : json := JObj [("message", JStr text)].

Section Routes.

(** The attributes of an event other than its key: the specification
    treats them opaquely, so the views are parametric in them. *)
Variable event_attributes : list attribute.

(** Modelled from the spec: [paralympics/models.py] and
    [paralympics/schemas.py] are not among the sources.  Section 3 gives
    Event the store-generated integer primary key [id], which therefore is
    a column but no field of a payload. *)
Definition Event : model :=
  {| m_entity := event_table; m_pk := "id"; m_generated := true;
     m_fields := event_attributes |}.

(** Flask-Marshmallow Schemas *)
Definition regions_schema := {| s_model := Region; s_many := true |}.
Definition region_schema := {| s_model := Region; s_many := false |}.
Definition events_schema := {| s_model := Event; s_many := true |}.
Definition event_schema := {| s_model := Event; s_many := false |}.

Definition get_regions : M response :=
  let* res := execute (select Region) in
  let* all_regions := scalars res in
  let* result := dump regions_schema (Many all_regions) in
  ret (result, 200).

Definition get_region (code : string) : M response :=
  try_except
    (let* st := filter_by "NOC" (Some (SStr code)) (select Region) in
     let* res := execute st in
     let* region := scalar_one res in
     let* result := dump region_schema (One (Some region)) in
     ret (result, 200))
    (λ e, match e with
          | NoResultFound => Some (abort 404 "Region not found.")
          | _ => None
          end).

Definition get_events : M response :=
  let* res := execute (select Event) in
  let* all_events := scalars res in
  let* result := dump events_schema (Many all_events) in
  ret (result, 200).

(** The URL text is compared by the store with the integer column [id];
    the handler is modelled at the integer the text denotes. *)
Definition get_event (event_id : Z) : M response :=
  let* st := filter_by "id" (Some (SInt event_id)) (select Event) in
  let* res := execute st in
  let* event := scalar_one res in
  let* result := dump event_schema (One (Some event)) in
  ret (result, 200).

Definition add_event (ev_json : json) : M response :=
  try_except
    (let* event := load event_schema ev_json None false in
     session_add event >>
     session_commit >>
     let* id := getattr (Some event) "id" in
     ret (message ("Event added with id= " ++ py_str id), 201))
    (λ err, match err with
            | ValidationError _ => Some (handle_validation_error err)
            | _ => None
            end).

Definition add_region (json_data : json) : M response :=
  try_except
    (let* region := load region_schema json_data None false in
     session_add region >>
     session_commit >>
     let* NOC := getattr (Some region) "NOC" in
     ret (message ("Region added with NOC= " ++ py_str NOC), 201))
    (λ err, match err with
            | ValidationError _ => Some (handle_validation_error err)
            | _ => None
            end).

Definition delete_event (event_id : Z) : M response :=
  let* st := filter_by "id" (Some (SInt event_id)) (select Event) in
  let* res := execute st in
  let* event := scalar_one res in
  session_delete event >>
  session_commit >>
  ret (message ("Event " ++ pretty event_id ++ " deleted"), 200).

Definition delete_region (noc_code : string) : M response :=
  let* st := filter_by "NOC" (Some (SStr noc_code)) (select Region) in
  let* res := execute st in
  let* region := scalar_one res in
  session_delete region >>
  session_commit >>
  ret (message ("Region " ++ noc_code ++ " deleted"), 200).

Definition event_update (event_id : Z) (event_json : json) : M response :=
  let* st := filter_by "event_id" (Some (SInt event_id)) (select Event) in
  let* res := execute st in
  let* existing_event := scalar_one_or_none res in
  let* event_updated := load event_schema event_json existing_event true in
  session_add event_updated >>
  session_commit >>
  let* st := filter_by "event_id" (Some (SInt event_id)) (select Event) in
  let* res := execute st in
  let* updated_event := scalar_one_or_none res in
  let* result := dump event_schema (One updated_event) in
  ret (result, 200).

Definition region_update (noc_code : string) (region_json : json) : M response :=
  let* st := filter_by "NOC" (Some (SStr noc_code)) (select Region) in
  let* res := execute st in
  let* existing_region := scalar_one_or_none res in
  let* region_updated := load region_schema region_json existing_region true in
  session_add region_updated >>
  session_commit >>
  let* st := filter_by "NOC" (Some (SStr noc_code)) (select Region) in
  let* res := execute st in
  let* updated_region := scalar_one_or_none res in
  let* result := dump region_schema (One updated_region) in
  ret (result, 200).

(** *** Requests *)

Inductive request :=
  | GET_regions
  | GET_region (code : string)
  | POST_regions (body : json)
  | PATCH_region (code : string) (body : json)
  | DELETE_region (code : string)
  | GET_events
  | GET_event (event_id : Z)
  | POST_events (body : json)
  | PATCH_event (event_id : Z) (body : json)
  | DELETE_event (event_id : Z).

(** The URL map of the decorators. *)
Definition view_function (req : request) : M response :=
  match req with
  | GET_regions => get_regions
  | GET_region code => get_region code
  | POST_regions body => add_region body
  | PATCH_region code body => region_update code body
  | DELETE_region code => delete_region code
  | GET_events => get_events
  | GET_event event_id => get_event event_id
  | POST_events body => add_event body
  | PATCH_event event_id body => event_update event_id body
  | DELETE_event event_id => delete_event event_id
  end.

(** One request: a session of its own over the stored tables; what is
    not committed when the request ends is gone with the session. *)
Definition new_session (d : database) : session :=
  {| db := d; heap := []; commits := 0 |}.

Definition handle (req : request) (d : database) : reply * database * nat :=
  let '(r, s) := full_dispatch_request (view_function req) (new_session d) in
  (r, db s, commits s).

End Routes.


(** * Vocabulary of the properties *)

(** [stable s s']: same durable tables, same number of commits. *)
Definition stable (s s' : session) : Prop :=
  db s' = db s ∧ commits s' = commits s.

Definition quiet {A} (m : M A) : Prop := ∀ s, stable s (m s).2.

(** [once m]: either [m] completed exactly one commit, or it raised and
    the tables are as they were. *)
Definition once {A} (m : M A) : Prop :=
  ∀ s, commits (m s).2 = S (commits s)
       ∨ (stable s (m s).2 ∧ ∃ e, (m s).1 = Raise e).

(** What a view may do to the store: one completed commit, or nothing at
    all, and then it does not answer with a success status. *)
Definition transactional (m : M response) : Prop :=
  ∀ s, commits (m s).2 = S (commits s)
       ∨ (stable s (m s).2 ∧ ∀ body st, (m s).1 = Return (body, st) → st = 400).

(** [plain m]: [m] raises no HTTP exception ([abort] is not reached). *)
Definition plain {A} (m : M A) : Prop :=
  ∀ s c dsc, (m s).1 ≠ Raise (HTTPException c dsc).

(** [answers P m]: what [m] returns, when it returns, satisfies [P]. *)
Definition answers {A} (P : A → Prop) (m : M A) : Prop :=
  ∀ s a, (m s).1 = Return a → P a.

Definition except_ValidationError (err : exn) : option (M response) :=
  match err with
  | ValidationError _ => Some (handle_validation_error err)
  | _ => None
  end.

Definition is_GET (req : request) : bool :=
  match req with
  | GET_regions | GET_region _ | GET_events | GET_event _ => true
  | _ => false
  end.

(** A success: a response of the view with a status below 400. *)
Definition succeeded (r : reply) : bool :=
  match r with
  | Response st _ => bool_decide (st < 400)
  | ErrorPage _ _ => false
  end.

(** The three components of what [handle] gives. *)
Definition reply_of (x : reply * database * nat) : reply := x.1.1.
Definition stored_after (x : reply * database * nat) : database := x.1.2.
Definition commits_in (x : reply * database * nat) : nat := x.2.

Definition without (col : string) (v : cell) (t : list row) : list row :=
  filter (λ r, r !! col ≠ v) t.

(** ** A concrete store

    The region of the test fixture [new_region] in [tests/conftest.py], and
    one event of a model with the two text attributes [type] and [host]. *)

Definition fixture_attributes : list attribute :=
  [ text_attribute "type" true; text_attribute "host" false ].

Definition new_region : row :=
  {[ "NOC" := SStr "NEW"; "region" := SStr "A new region" ]}.

Definition an_event : row :=
  {[ "id" := SInt 3; "type" := SStr "summer" ]}.

Definition fixture_db : database :=
  {| regions := [new_region]; events := [an_event] |}.

Definition empty_db : database := {| regions := []; events := [] |}.

(** The payload of the scenario in section 8 of the specification, and a
    payload for an event of the fixture model. *)
Definition scenario_region : json :=
  JObj [("NOC", JStr "NEW"); ("region", JStr "A new region"); ("notes", JNull)].

Definition scenario_event : json := JObj [("type", JStr "winter")].

(** ** Vocabulary of the further properties *)

(** The UPDATE of the only row with a key, as a change of the table. *)
Definition put_row (col : string) (v : cell) (a : row) (t : list row)
    : list row :=
  (λ r, if decide (r !! col = v) then a else r) <$> t.

(** The object a fetched row becomes in the identity map. *)
Definition fetched (m : model) (r : row) : object :=
  {| o_model := m; o_state := Persistent; o_key := r !! m_pk m;
     o_dirty := false; o_attrs := r |}.

(** The key cells of a table. *)
Definition keys (pk : string) (t : list row) : list cell :=
  (λ r, r !! pk) <$> t.

(** The model a select statement is about. *)
Definition stmt_model (st : statement) : model :=
  match st with Select m | SelectFilterBy m _ _ => m end.

(** [inv G D s]: the store of [s] has the property [D] and every object
    of [s] is of a model in [G]. *)
Definition inv (G : model → Prop) (D : database → Prop) (s : session) : Prop :=
  D (db s) ∧ Forall (λ o, G (o_model o)) (heap s).

(** [keeps I Q m]: [m] keeps the invariant [I] of the session, whether it
    returns or raises, and what it returns satisfies [Q]. *)
Definition keeps {A} (I : session → Prop) (Q : A → Prop) (m : M A) : Prop :=
  ∀ s, I s → I (m s).2 ∧ ∀ a, (m s).1 = Return a → Q a.

(** Which table a request is about. *)
Definition resource (req : request) : entity :=
  match req with
  | GET_regions | GET_region _ | POST_regions _ | PATCH_region _ _
  | DELETE_region _ => region_table
  | GET_events | GET_event _ | POST_events _ | PATCH_event _ _
  | DELETE_event _ => event_table
  end.

(** [raises E m]: every exception that [m] raises is in [E]. *)
Definition raises {A} (E : exn → Prop) (m : M A) : Prop :=
  ∀ s e, (m s).1 = Raise e → E e.

(** The exceptions of the session and of Python itself, for which the
    application has no handler. *)
Definition internal (e : exn) : Prop :=
  match e with
  | ValidationError _ | HTTPException _ _ => False
  | _ => True
  end.

Definition invalid_or_internal (e : exn) : Prop :=
  match e with HTTPException _ _ => False | _ => True end.

(** The status Flask answers with when a view raises. *)
Definition error_status (e : exn) : nat :=
  match e with
  | HTTPException code _ => code
  | ValidationError _ => 400
  | _ => 500
  end.

(** The statuses of each route. *)
Definition statuses (req : request) : list nat :=
  match req with
  | GET_regions | GET_events | GET_event _ => [200; 500]
  | GET_region _ => [200; 404; 500]
  | POST_regions _ | POST_events _ => [201; 400; 500]
  | PATCH_region _ _ | PATCH_event _ _ => [200; 400; 500]
  | DELETE_region _ | DELETE_event _ => [200; 500]
  end.

(** A store with two rows in each table, the events not in the order of
    their ids. *)
Definition another_region : row :=
  {[ "NOC" := SStr "AFG"; "region" := SStr "Afghanistan";
     "notes" := SStr "none" ]}.

Definition later_event : row :=
  {[ "id" := SInt 5; "type" := SStr "winter"; "host" := SStr "Turin" ]}.

Definition filled_db : database :=
  {| regions := [new_region; another_region];
     events := [later_event; an_event] |}.

(** ** [tests/conftest.py]: the fixture [new_region] *)

(** A model class called with keyword arguments: a new object that no
    session knows yet. *)
Definition construct (m : model) (kwargs : list (string * cell)) : M ref :=
  alloc {| o_model := m; o_state := Transient; o_key := None;
           o_dirty := false; o_attrs := set_cells kwargs ∅ |}.

(** [db.session.query(exists().where(Model.col == v)).scalar()] *)
Definition exists_where (m : model) (col : string) (v : cell) : M bool :=
  let* st := filter_by col v (select m) in
  let* res := execute st in
  ret (bool_decide (res.2 ≠ [])).

(** [with app.app_context(): ...]: a session of its own over the stored
    tables.  The Python objects made so far are given to it and are what
    is left of them afterwards: an object that an earlier session made
    persistent still has its key, and [db.session.delete] takes such an
    object into the session. *)
Definition app_context {A} (body : M A) (d : database) (objects : list object)
    : result A * database * list object :=
  let '(r, s) := body {| db := d; heap := objects; commits := 0 |} in
  (r, db s, heap s).

(** The fixture up to its [yield]. *)
Definition new_region_setup : M (ref * cell) :=
  let* new_region := construct Region [("NOC", Some (SStr "NEW"));
                                       ("notes", None);
                                       ("region", Some (SStr "A new region"))] in
  session_add new_region >>
  session_commit >>
  let* noc_code := getattr (Some new_region) "NOC" in
  ret (new_region, noc_code).

(** The fixture after its [yield]. *)
Definition new_region_teardown (new_region : ref) : M unit :=
  let* region_exists := exists_where Region "NOC" (Some (SStr "NEW")) in
  if (region_exists : bool)
  then session_delete new_region >> session_commit
  else ret ().

(** The fixture around a test: the test gets the yielded NOC and works on
    the store through requests of its own. *)
Definition new_region_fixture (test : cell → database → database)
    (d : database) : result () * database :=
  match app_context new_region_setup d [] with
  | (Return (new_region, noc_code), d1, objects) =>
      let d2 := test noc_code d1 in
      let '(r, d3, _) := app_context (new_region_teardown new_region) d2 objects in
      (r, d3)
  | (Raise e, d1, _) => (Raise e, d1)
  end.

(** * Properties *)

(** ** The monad *)

Lemma bind_ret {A B} (a : A) (k : A → M B) : bind (ret a) k = k a.
Proof. reflexivity. Qed.

Lemma bind_raise {A B} (e : exn) (k : A → M B) : bind (raise e) k = raise e.
Proof. reflexivity. Qed.

Lemma bind_Return {A B} (m : M A) (k : A → M B) s a s' :
  m s = (Return a, s') → bind m k s = k a s'.
Proof. unfold bind. by intros ->. Qed.

Lemma bind_Raise {A B} (m : M A) (k : A → M B) s e s' :
  m s = (Raise e, s') → bind m k s = (Raise e, s').
Proof. unfold bind. by intros ->. Qed.

(** ** Frame: what does not touch the tables or the commit counter *)

Lemma stable_refl s : stable s s.
Proof. done. Qed.

Lemma stable_trans s1 s2 s3 : stable s1 s2 → stable s2 s3 → stable s1 s3.
Proof. unfold stable. intros [-> ->] [-> ->]. done. Qed.

Lemma stable_set_heap h s : stable s (set_heap h s).
Proof. done. Qed.

Create HintDb quiet.

Lemma quiet_ret {A} (a : A) : quiet (ret a).
Proof. intros s. apply stable_refl. Qed.

Lemma quiet_raise {A} (e : exn) : quiet (@raise A e).
Proof. intros s. apply stable_refl. Qed.

Lemma quiet_bind {A B} (m : M A) (k : A → M B) :
  quiet m → (∀ a, quiet (k a)) → quiet (bind m k).
Proof.
  intros Hm Hk s. unfold bind. specialize (Hm s).
  destruct (m s) as [[a|e] s']; simpl in *; [|done].
  eapply stable_trans; [exact Hm | apply Hk].
Qed.

Lemma quiet_try_except {A} (body : M A) (handler : exn → option (M A)) :
  quiet body → (∀ e h, handler e = Some h → quiet h) →
  quiet (try_except body handler).
Proof.
  intros Hb Hh s. unfold try_except. specialize (Hb s).
  destruct (body s) as [[a|e] s']; simpl in *; [done|].
  destruct (handler e) as [h|] eqn:He; [|done].
  eapply stable_trans; [exact Hb | by eapply Hh].
Qed.

Lemma quiet_mapM {A B} (f : A → M B) (l : list A) :
  (∀ a, quiet (f a)) → quiet (mapM f l).
Proof.
  intros Hf. induction l as [|x l IH]; simpl.
  - apply quiet_ret.
  - apply quiet_bind; [apply Hf|]. intros y.
    apply quiet_bind; [apply IH|]. intros ys. apply quiet_ret.
Qed.

Lemma quiet_alloc o : quiet (alloc o).
Proof. intros s. apply stable_set_heap. Qed.

Lemma quiet_deref r : quiet (deref r).
Proof. intros s. unfold deref. destruct (heap s !! r); apply stable_refl. Qed.

Lemma quiet_update r f : quiet (update r f).
Proof.
  intros s. unfold update. destruct (heap s !! r); simpl; [|apply stable_refl].
  apply stable_set_heap.
Qed.

Lemma quiet_getattr r name : quiet (getattr r name).
Proof.
  destruct r as [r|]; simpl; [|apply quiet_raise].
  apply quiet_bind; [apply quiet_deref|]. intros o. apply quiet_ret.
Qed.

Lemma quiet_setattr r name c : quiet (setattr r name c).
Proof. apply quiet_update. Qed.

Lemma quiet_filter_by col v st : quiet (filter_by col v st).
Proof.
  destruct st; simpl; case_decide; auto using @quiet_ret, @quiet_raise.
Qed.

Lemma quiet_execute st : quiet (execute st).
Proof. intros s. destruct st; apply stable_refl. Qed.

Lemma quiet_identify m r : quiet (identify m r).
Proof.
  intros s. unfold identify.
  destruct (list_find _ _) as [[i o]|]; [apply stable_refl|apply quiet_alloc].
Qed.

Lemma quiet_scalars res : quiet (scalars res).
Proof. apply quiet_mapM. intros r. apply quiet_identify. Qed.

Lemma quiet_scalar_one res : quiet (scalar_one res).
Proof.
  unfold scalar_one. destruct res.2 as [|r [|r' t]];
    auto using @quiet_raise, quiet_identify.
Qed.

Lemma quiet_scalar_one_or_none res : quiet (scalar_one_or_none res).
Proof.
  unfold scalar_one_or_none. destruct res.2 as [|r [|r' t]];
    auto using @quiet_ret, @quiet_raise.
  apply quiet_bind; [apply quiet_identify|]. intros x. apply quiet_ret.
Qed.

Lemma quiet_first res : quiet (first res).
Proof.
  unfold first. destruct res.2 as [|r t]; [apply quiet_ret|].
  apply quiet_bind; [apply quiet_identify|]. intros x. apply quiet_ret.
Qed.

Lemma quiet_session_add r : quiet (session_add r).
Proof. apply quiet_update. Qed.

Lemma quiet_session_delete r : quiet (session_delete r).
Proof.
  apply quiet_bind; [apply quiet_deref|]. intros o.
  destruct (o_state o); auto using @quiet_raise, quiet_update.
Qed.

#[local] Hint Resolve quiet_ret quiet_raise quiet_alloc quiet_deref
  quiet_update quiet_getattr quiet_setattr quiet_filter_by quiet_execute
  quiet_identify quiet_scalars quiet_scalar_one quiet_scalar_one_or_none
  quiet_first quiet_session_add quiet_session_delete : quiet.

(** Applies the frame rules down a sequence of binds. *)
Ltac quiet_steps :=
  repeat first
    [ progress eauto 2 with quiet
    | apply quiet_bind; [|intros ?]
    | apply quiet_mapM; intros ? ].

Lemma quiet_get_instance m valid : quiet (get_instance m valid).
Proof.
  unfold get_instance. destruct (assoc _ _) as [[k|]|]; quiet_steps.
Qed.

Lemma quiet_make_instance m instance valid :
  quiet (make_instance m instance valid).
Proof.
  unfold make_instance. apply quiet_bind.
  - destruct instance; [apply quiet_ret|apply quiet_get_instance].
  - intros [r|]; quiet_steps.
Qed.

Lemma quiet_load sch data instance partial :
  quiet (load sch data instance partial).
Proof.
  unfold load. destruct (validate _ _ _); [apply quiet_raise|].
  apply quiet_make_instance.
Qed.

Lemma quiet_dump_one m r : quiet (dump_one m r).
Proof. destruct r; simpl; quiet_steps. Qed.

Lemma quiet_dump sch t : quiet (dump sch t).
Proof.
  unfold dump. destruct (s_many sch), t; quiet_steps; apply quiet_dump_one.
Qed.

Lemma quiet_handle_validation_error e : quiet (handle_validation_error e).
Proof. destruct e; simpl; quiet_steps. Qed.

Lemma quiet_abort {A} code description : quiet (@abort A code description).
Proof. apply quiet_raise. Qed.

#[local] Hint Resolve quiet_get_instance quiet_make_instance quiet_load
  quiet_dump_one quiet_dump quiet_handle_validation_error quiet_abort : quiet.

(** ** Commits *)

Lemma once_session_commit : once session_commit.
Proof.
  intros s. unfold session_commit.
  destruct (flush _ _) as [[h d]|]; simpl; [by left|].
  right. split; [apply stable_refl|by eexists].
Qed.

Lemma once_quiet_bind {A B} (m : M A) (k : A → M B) :
  quiet m → (∀ a, once (k a)) → once (bind m k).
Proof.
  intros Hm Hk s. unfold bind. specialize (Hm s).
  destruct (m s) as [[a|e] s1]; simpl in *.
  - destruct (Hk a s1) as [Hc|[Hst He]].
    + left. destruct Hm as [_ <-]. done.
    + right. split; [by eapply stable_trans|done].
  - right. split; [done|by eexists].
Qed.

Lemma once_bind_quiet {A B} (m : M A) (k : A → M B) :
  once m → (∀ a, quiet (k a)) → once (bind m k).
Proof.
  intros Hm Hk s. unfold bind. specialize (Hm s).
  destruct (m s) as [[a|e] s1]; simpl in *.
  - destruct Hm as [Hc|[_ [e He]]]; [|done].
    left. destruct (Hk a s1) as [_ ->]. done.
  - destruct Hm as [Hc|[Hst _]]; [by left|].
    right. split; [done|by eexists].
Qed.

(** A sequence of frame steps, one commit, and frame steps again. *)
Ltac once_steps :=
  repeat (apply once_quiet_bind; [by quiet_steps | intros ?]);
  apply once_bind_quiet; [apply once_session_commit | intros ?; quiet_steps].

Lemma once_transactional (m : M response) : once m → transactional m.
Proof.
  intros Hm s. destruct (Hm s) as [Hc|[Hst [e He]]]; [by left|].
  right. split; [done|]. intros body st. rewrite He. done.
Qed.

Lemma try_validation_transactional (body : M response) :
  once body → transactional (try_except body except_ValidationError).
Proof.
  intros Hb s. unfold try_except. specialize (Hb s).
  destruct (body s) as [[a|e] s1]; simpl in *.
  - destruct Hb as [Hc|[_ [e He]]]; [by left|done].
  - destruct Hb as [Hc|[Hst _]].
    + left. destruct e; simpl; done.
    + right. destruct e; simpl; try done.
      split; [done|]. by intros body' st [= _ <-].
Qed.

Section RouteFrames.

Variable event_attributes : list attribute.

Abbreviation view_function' := (view_function event_attributes).

Lemma get_regions_quiet : quiet get_regions.
Proof. unfold get_regions. quiet_steps. Qed.

Lemma get_region_quiet code : quiet (get_region code).
Proof.
  unfold get_region. apply quiet_try_except; [quiet_steps|].
  intros [] h [= <-]. apply quiet_abort.
Qed.

Lemma get_events_quiet : quiet (get_events event_attributes).
Proof. unfold get_events. quiet_steps. Qed.

Lemma get_event_quiet event_id : quiet (get_event event_attributes event_id).
Proof. unfold get_event. quiet_steps. Qed.

Lemma add_event_transactional ev_json :
  transactional (add_event event_attributes ev_json).
Proof. apply try_validation_transactional. once_steps. Qed.

Lemma add_region_transactional json_data :
  transactional (add_region json_data).
Proof. apply try_validation_transactional. once_steps. Qed.

Lemma delete_event_once event_id :
  once (delete_event event_attributes event_id).
Proof. unfold delete_event. once_steps. Qed.

Lemma delete_region_once noc_code : once (delete_region noc_code).
Proof. unfold delete_region. once_steps. Qed.

Lemma event_update_once event_id event_json :
  once (event_update event_attributes event_id event_json).
Proof. unfold event_update. once_steps. Qed.

Lemma region_update_once noc_code region_json :
  once (region_update noc_code region_json).
Proof. unfold region_update. once_steps. Qed.

Lemma GET_quiet req : is_GET req = true → quiet (view_function' req).
Proof.
  destruct req; try done; intros _; simpl;
    auto using get_regions_quiet, get_region_quiet, get_events_quiet,
      get_event_quiet.
Qed.

Lemma mutation_transactional req :
  is_GET req = false → transactional (view_function' req).
Proof.
  destruct req; try done; intros _; simpl;
    auto using add_event_transactional, add_region_transactional,
      once_transactional, delete_event_once, delete_region_once,
      event_update_once, region_update_once.
Qed.

End RouteFrames.

(** ** Atomicity of a request *)

Lemma dispatch_quiet view s :
  quiet view → stable s (full_dispatch_request view s).2.
Proof.
  intros Hv. unfold full_dispatch_request. specialize (Hv s).
  destruct (view s) as [[[body st]|e] s1]; simpl in *; [done|].
  destruct e; simpl; try done. by case_decide.
Qed.

Lemma dispatch_transactional view s :
  transactional view →
  commits (full_dispatch_request view s).2 = S (commits s)
  ∨ (stable s (full_dispatch_request view s).2
     ∧ succeeded (full_dispatch_request view s).1 = false).
Proof.
  intros Hv. unfold full_dispatch_request. specialize (Hv s).
  destruct (view s) as [[[body st]|e] s1]; simpl in *.
  - destruct Hv as [Hc|[Hst Hr]]; [by left|].
    right. split; [done|]. by rewrite (Hr body st).
  - destruct Hv as [Hc|[Hst _]].
    + left. destruct e; simpl; try done. by case_decide.
    + right. destruct e; simpl; try done. by case_decide.
Qed.

Lemma handle_eq event_attributes req d :
  handle event_attributes req d =
  let p := full_dispatch_request (view_function event_attributes req)
             (new_session d) in
  (p.1, db p.2, commits p.2).
Proof. unfold handle. by destruct (full_dispatch_request _ _). Qed.

(** A payload that fails the validation: [load] raises, nothing is staged. *)
Lemma load_invalid sch data instance partial errors s :
  validate (m_fields (s_model sch)) partial data = inl errors →
  load sch data instance partial s = (Raise (ValidationError errors), s).
Proof. unfold load. by intros ->. Qed.

Lemma add_region_invalid event_attributes json_data errors d :
  validate (m_fields Region) false json_data = inl errors →
  handle event_attributes (POST_regions json_data) d
  = (Response 400 (jsonify_messages errors), d, 0).
Proof.
  intros Hv. rewrite handle_eq. simpl.
  unfold full_dispatch_request, add_region, try_except.
  erewrite bind_Raise; [|by apply load_invalid]. done.
Qed.

Lemma add_event_invalid event_attributes ev_json errors d :
  validate event_attributes false ev_json = inl errors →
  handle event_attributes (POST_events ev_json) d
  = (Response 400 (jsonify_messages errors), d, 0).
Proof.
  intros Hv. rewrite handle_eq. simpl.
  unfold full_dispatch_request, add_event, try_except.
  erewrite bind_Raise; [|by apply load_invalid]. done.
Qed.

Lemma request_frame event_attributes req d :
  let x := handle event_attributes req d in
  (is_GET req = true → stored_after x = d ∧ commits_in x = 0)
  ∧ (is_GET req = false →
     (commits_in x = 1)
     ∨ (stored_after x = d ∧ commits_in x = 0 ∧ succeeded (reply_of x) = false)).
Proof.
  cbv zeta. rewrite handle_eq. unfold stored_after, commits_in, reply_of.
  cbv zeta. simpl. split; intros Hget.
  - destruct (dispatch_quiet (view_function event_attributes req)
                (new_session d)) as [Hdb Hc]; [by apply GET_quiet|].
    by rewrite Hc, Hdb.
  - destruct (dispatch_transactional (view_function event_attributes req)
                (new_session d)) as [Hc|[[Hdb Hc] Hf]];
      [by apply mutation_transactional| |].
    + left. by rewrite Hc.
    + right. by rewrite Hc, Hdb, Hf.
Qed.

(** ** Running single requests *)

Lemma filter_by_column m col v :
  col ∈ columns m → filter_by col v (select m) = ret (SelectFilterBy m col v).
Proof. intros H. simpl. by rewrite decide_True. Qed.

Lemma filter_by_unknown m col v :
  col ∉ columns m → filter_by col v (select m) = raise InvalidRequestError.
Proof. intros H. simpl. by rewrite decide_False. Qed.

Lemma NOC_column : "NOC" ∈ columns Region.
Proof. apply list_elem_of_here. Qed.

Lemma id_column event_attributes : "id" ∈ columns (Event event_attributes).
Proof. apply list_elem_of_here. Qed.

Lemma handle_Return event_attributes req d body st s' :
  view_function event_attributes req (new_session d) = (Return (body, st), s') →
  handle event_attributes req d = (Response st body, db s', commits s').
Proof. intros H. unfold handle, full_dispatch_request. by rewrite H. Qed.

Lemma handle_NoResultFound event_attributes req d s' :
  view_function event_attributes req (new_session d) = (Raise NoResultFound, s') →
  handle event_attributes req d = (ErrorPage 500 NoResultFound, db s', commits s').
Proof. intros H. unfold handle, full_dispatch_request. by rewrite H. Qed.

(** ** Selections by key *)

Lemma matching_key col v t r : r ∈ matching col v t → r !! col = v.
Proof. unfold matching. rewrite list_elem_of_filter. tauto. Qed.

Lemma matching_single_key col v t r : matching col v t = [r] → r !! col = v.
Proof. intros H. apply (matching_key col v t). rewrite H. apply list_elem_of_here. Qed.

Lemma matching_nil col v (t : list row) :
  matching col v t = [] → Forall (λ r, r !! col ≠ v) t.
Proof.
  unfold matching. induction t as [|x t IH]; [constructor|].
  rewrite filter_cons. destruct (decide (x !! col = v)); [done|].
  intros H. constructor; auto.
Qed.

Lemma filter_others col v (t : list row) :
  Forall (λ r, r !! col ≠ v) t → filter (λ r, r !! col ≠ v) t = t.
Proof.
  induction 1 as [|x t Hx Ht IH]; [done|].
  rewrite filter_cons. rewrite decide_True by done. by rewrite IH.
Qed.

(** A selection with exactly one row splits the table around that row. *)
Lemma matching_single_split col v (t : list row) r :
  matching col v t = [r] →
  ∃ l1 l2, t = l1 ++ r :: l2
           ∧ filter (λ r', r' !! col ≠ v) t = l1 ++ l2
           ∧ Forall (λ r', r' !! col ≠ v) (l1 ++ l2).
Proof.
  induction t as [|x t IH]; [done|].
  unfold matching. rewrite !filter_cons.
  destruct (decide (x !! col = v)) as [Hx|Hx].
  - intros [= -> Ht]. apply matching_nil in Ht.
    exists [], t. rewrite decide_False by (by intros ?).
    by rewrite filter_others.
  - intros Ht. destruct (IH Ht) as (l1 & l2 & -> & Hf & Hall).
    exists (x :: l1), l2. rewrite decide_True by done.
    rewrite Hf. split_and!; [done|done|by constructor].
Qed.

(** ** DELETE *)

Section Delete.

Variable event_attributes : list attribute.
Variable d : database.

Lemma delete_region_run k r :
  matching "NOC" (Some (SStr k)) (regions d) = [r] →
  ∃ h, delete_region k (new_session d)
       = (Return (message ("Region " ++ k ++ " deleted"), 200),
          {| db := {| regions := without "NOC" (Some (SStr k)) (regions d);
                      events := events d |};
             heap := h; commits := 1 |}).
Proof.
  intros Hm. pose proof (matching_single_key _ _ _ _ Hm) as Hk.
  unfold delete_region.
  rewrite filter_by_column; [|apply NOC_column]. rewrite bind_ret.
  unfold bind at 1. simpl. rewrite Hm.
  unfold bind at 1. simpl.
  unfold bind at 1, session_delete. unfold bind at 1. simpl.
  unfold bind at 1, session_commit. simpl. rewrite Hk.
  by eexists.
Qed.

Lemma delete_event_run k r :
  matching "id" (Some (SInt k)) (events d) = [r] →
  ∃ h, delete_event event_attributes k (new_session d)
       = (Return (message ("Event " ++ pretty k ++ " deleted"), 200),
          {| db := {| regions := regions d;
                      events := without "id" (Some (SInt k)) (events d) |};
             heap := h; commits := 1 |}).
Proof.
  intros Hm. pose proof (matching_single_key _ _ _ _ Hm) as Hk.
  unfold delete_event.
  rewrite filter_by_column; [|apply id_column]. rewrite bind_ret.
  unfold bind at 1. simpl. rewrite Hm.
  unfold bind at 1. simpl.
  unfold bind at 1, session_delete. unfold bind at 1. simpl.
  unfold bind at 1, session_commit. simpl. rewrite Hk.
  by eexists.
Qed.

Lemma delete_region_found k r :
  matching "NOC" (Some (SStr k)) (regions d) = [r] →
  handle event_attributes (DELETE_region k) d
  = (Response 200 (message ("Region " ++ k ++ " deleted")),
     {| regions := without "NOC" (Some (SStr k)) (regions d);
        events := events d |}, 1).
Proof.
  intros Hm. destruct (delete_region_run k r Hm) as [h Hrun].
  by rewrite (handle_Return event_attributes (DELETE_region k) d _ _ _ Hrun).
Qed.

Lemma delete_event_found k r :
  matching "id" (Some (SInt k)) (events d) = [r] →
  handle event_attributes (DELETE_event k) d
  = (Response 200 (message ("Event " ++ pretty k ++ " deleted")),
     {| regions := regions d;
        events := without "id" (Some (SInt k)) (events d) |}, 1).
Proof.
  intros Hm. destruct (delete_event_run k r Hm) as [h Hrun].
  by rewrite (handle_Return event_attributes (DELETE_event k) d _ _ _ Hrun).
Qed.

(** No row with the key: [scalar_one] raises and nothing takes it. *)
Lemma delete_region_absent k :
  matching "NOC" (Some (SStr k)) (regions d) = [] →
  handle event_attributes (DELETE_region k) d
  = (ErrorPage 500 NoResultFound, d, 0).
Proof.
  intros Hm.
  rewrite (handle_NoResultFound event_attributes (DELETE_region k) d
             (new_session d)); [done|].
  simpl. unfold delete_region.
  rewrite filter_by_column; [|apply NOC_column]. rewrite bind_ret.
  unfold bind at 1. simpl. rewrite Hm. done.
Qed.

Lemma delete_event_absent k :
  matching "id" (Some (SInt k)) (events d) = [] →
  handle event_attributes (DELETE_event k) d
  = (ErrorPage 500 NoResultFound, d, 0).
Proof.
  intros Hm.
  rewrite (handle_NoResultFound event_attributes (DELETE_event k) d
             (new_session d)); [done|].
  simpl. unfold delete_event.
  rewrite filter_by_column; [|apply id_column]. rewrite bind_ret.
  unfold bind at 1. simpl. rewrite Hm. done.
Qed.

(** What is left after a delete has no row with the key any more. *)
Lemma matching_without col v (t : list row) :
  matching col v (without col v t) = [].
Proof.
  unfold matching, without. induction t as [|x t IH]; [done|].
  rewrite filter_cons. destruct (decide (x !! col ≠ v)) as [Hx|Hx]; [|done].
  rewrite filter_cons. by rewrite decide_False.
Qed.

End Delete.

(** ** GET by key *)

Section GetByKey.

Variable event_attributes : list attribute.
Variable d : database.

Lemma get_region_found code r :
  matching "NOC" (Some (SStr code)) (regions d) = [r] →
  handle event_attributes (GET_region code) d
  = (Response 200 (dump_row Region r), d, 0).
Proof.
  intros Hm.
  rewrite (handle_Return event_attributes (GET_region code) d
             (dump_row Region r) 200
             (set_heap [ {| o_model := Region; o_state := Persistent;
                            o_key := r !! "NOC"; o_dirty := false;
                            o_attrs := r |} ] (new_session d))); [done|].
  simpl. unfold get_region, try_except.
  rewrite filter_by_column; [|apply NOC_column]. rewrite bind_ret.
  unfold bind at 1. simpl. rewrite Hm. done.
Qed.

Lemma get_region_absent code :
  matching "NOC" (Some (SStr code)) (regions d) = [] →
  handle event_attributes (GET_region code) d
  = (Response 404 (JObj [("error", JStr "404 Not Found: Region not found.")]),
     d, 0).
Proof.
  intros Hm. unfold handle, full_dispatch_request. simpl.
  unfold get_region, try_except.
  rewrite filter_by_column; [|apply NOC_column]. rewrite bind_ret.
  unfold bind at 1. simpl. rewrite Hm. done.
Qed.

Lemma get_event_found k r :
  matching "id" (Some (SInt k)) (events d) = [r] →
  handle event_attributes (GET_event k) d
  = (Response 200 (dump_row (Event event_attributes) r), d, 0).
Proof.
  intros Hm.
  rewrite (handle_Return event_attributes (GET_event k) d
             (dump_row (Event event_attributes) r) 200
             (set_heap [ {| o_model := Event event_attributes;
                            o_state := Persistent;
                            o_key := r !! "id"; o_dirty := false;
                            o_attrs := r |} ] (new_session d))); [done|].
  simpl. unfold get_event.
  rewrite filter_by_column; [|apply id_column]. rewrite bind_ret.
  unfold bind at 1. simpl. rewrite Hm. done.
Qed.

(** [get_event] has no [except NoResultFound]: the exception of
    [scalar_one] reaches Flask, which has no handler for it. *)
Lemma get_event_absent k :
  matching "id" (Some (SInt k)) (events d) = [] →
  handle event_attributes (GET_event k) d
  = (ErrorPage 500 NoResultFound, d, 0).
Proof.
  intros Hm.
  rewrite (handle_NoResultFound event_attributes (GET_event k) d
             (new_session d)); [done|].
  simpl. unfold get_event.
  rewrite filter_by_column; [|apply id_column]. rewrite bind_ret.
  unfold bind at 1. simpl. rewrite Hm. done.
Qed.

End GetByKey.

(** C3 (the code departs from it): a GET of an event id that is not stored
    is not answered with 404 and a JSON error body but with the 500 error
    page, [NoResultFound] being unhandled in [get_event]; the sibling
    [get_region] answers 404 with a non-empty ["error"] string. *)
Theorem get_event_absent_key_is_server_error :
  handle fixture_attributes (GET_event 4) fixture_db
  = (ErrorPage 500 NoResultFound, fixture_db, 0)
  ∧ handle fixture_attributes (GET_region "ZZZ") fixture_db
    = (Response 404 (JObj [("error", JStr "404 Not Found: Region not found.")]),
       fixture_db, 0).
Proof.
  split.
  - by apply get_event_absent.
  - by apply get_region_absent.
Qed.

(** C4 (the code departs from it): a DELETE of a key that is not stored,
    or that was deleted by the request before, is answered with the 500
    error page ([NoResultFound] is unhandled in both delete views), not
    with 404 and a JSON error body. *)
Theorem delete_absent_key_is_server_error :
  handle fixture_attributes (DELETE_region "ZZZ") fixture_db
  = (ErrorPage 500 NoResultFound, fixture_db, 0)
  ∧ handle fixture_attributes (DELETE_event 4) fixture_db
    = (ErrorPage 500 NoResultFound, fixture_db, 0)
  ∧ (∃ d1, handle fixture_attributes (DELETE_region "NEW") fixture_db
           = (Response 200 (message "Region NEW deleted"), d1, 1)
         ∧ handle fixture_attributes (DELETE_region "NEW") d1
           = (ErrorPage 500 NoResultFound, d1, 0)).
Proof.
  split_and!.
  - by apply delete_region_absent.
  - by apply delete_event_absent.
  - eexists. split.
    + by rewrite (delete_region_found fixture_attributes fixture_db "NEW"
                    new_region).
    + apply delete_region_absent. apply matching_without.
Qed.

(** C7: the DELETE of a stored region is answered with 200 and
    [{"message": "Region <NOC> deleted"}], the DELETE of a stored event
    with 200 and [{"message": "Event <id> deleted"}]; the store left behind
    is the one before without the rows of that key, the other table as it
    was, after one commit. *)
Theorem delete_existing_message event_attributes d :
  (∀ k r, matching "NOC" (Some (SStr k)) (regions d) = [r] →
     handle event_attributes (DELETE_region k) d
     = (Response 200 (message ("Region " ++ k ++ " deleted")),
        {| regions := without "NOC" (Some (SStr k)) (regions d);
           events := events d |}, 1))
  ∧ (∀ k r, matching "id" (Some (SInt k)) (events d) = [r] →
     handle event_attributes (DELETE_event k) d
     = (Response 200 (message ("Event " ++ pretty k ++ " deleted")),
        {| regions := regions d;
           events := without "id" (Some (SInt k)) (events d) |}, 1)).
Proof.
  split; intros k r Hm.
  - by apply (delete_region_found _ _ _ r).
  - by apply (delete_event_found _ _ _ r).
Qed.

Lemma delete_existing_message_witness :
  (matching "NOC" (Some (SStr "NEW")) (regions fixture_db) = [new_region]
   ∧ handle fixture_attributes (DELETE_region "NEW") fixture_db
     = (Response 200 (message "Region NEW deleted"),
        {| regions := without "NOC" (Some (SStr "NEW")) (regions fixture_db);
           events := events fixture_db |}, 1))
  ∧ (matching "id" (Some (SInt 3)) (events fixture_db) = [an_event]
     ∧ handle fixture_attributes (DELETE_event 3) fixture_db
       = (Response 200 (message "Event 3 deleted"),
          {| regions := regions fixture_db;
             events := without "id" (Some (SInt 3)) (events fixture_db) |}, 1)).
Proof.
  split; (split; [reflexivity|]).
  - apply (proj1 (delete_existing_message fixture_attributes fixture_db)
             "NEW" new_region). reflexivity.
  - apply (proj2 (delete_existing_message fixture_attributes fixture_db)
             3%Z an_event). reflexivity.
Defined.

(** C10: the DELETE of a stored region takes exactly the row with that
    NOC out of the region table, every other region row staying where it
    was, and leaves the event table alone; the DELETE of a stored event
    does the same to the event table and leaves the regions alone. *)
Theorem delete_removes_one_row event_attributes d :
  (∀ k r, matching "NOC" (Some (SStr k)) (regions d) = [r] →
     let d' := stored_after (handle event_attributes (DELETE_region k) d) in
     events d' = events d
     ∧ ∃ l1 l2, regions d = l1 ++ r :: l2 ∧ regions d' = l1 ++ l2
                ∧ r !! "NOC" = Some (SStr k)
                ∧ Forall (λ r', r' !! "NOC" ≠ Some (SStr k)) (l1 ++ l2))
  ∧ (∀ k r, matching "id" (Some (SInt k)) (events d) = [r] →
     let d' := stored_after (handle event_attributes (DELETE_event k) d) in
     regions d' = regions d
     ∧ ∃ l1 l2, events d = l1 ++ r :: l2 ∧ events d' = l1 ++ l2
                ∧ r !! "id" = Some (SInt k)
                ∧ Forall (λ r', r' !! "id" ≠ Some (SInt k)) (l1 ++ l2)).
Proof.
  split; intros k r Hm d'; subst d'.
  - rewrite (delete_region_found _ _ _ r Hm). simpl. split; [done|].
    destruct (matching_single_split _ _ _ _ Hm) as (l1 & l2 & Ht & Hf & Hall).
    exists l1, l2. split_and!; try done. by eapply matching_single_key.
  - rewrite (delete_event_found _ _ _ r Hm). simpl. split; [done|].
    destruct (matching_single_split _ _ _ _ Hm) as (l1 & l2 & Ht & Hf & Hall).
    exists l1, l2. split_and!; try done. by eapply matching_single_key.
Qed.

Lemma delete_removes_one_row_witness :
  (matching "NOC" (Some (SStr "NEW")) (regions fixture_db) = [new_region]
   ∧ let d' := stored_after (handle fixture_attributes (DELETE_region "NEW")
                               fixture_db) in
     events d' = events fixture_db
     ∧ ∃ l1 l2, regions fixture_db = l1 ++ new_region :: l2
                ∧ regions d' = l1 ++ l2
                ∧ new_region !! "NOC" = Some (SStr "NEW")
                ∧ Forall (λ r', r' !! "NOC" ≠ Some (SStr "NEW")) (l1 ++ l2))
  ∧ (matching "id" (Some (SInt 3)) (events fixture_db) = [an_event]
     ∧ let d' := stored_after (handle fixture_attributes (DELETE_event 3)
                                 fixture_db) in
       regions d' = regions fixture_db
       ∧ ∃ l1 l2, events fixture_db = l1 ++ an_event :: l2
                  ∧ events d' = l1 ++ l2
                  ∧ an_event !! "id" = Some (SInt 3)
                  ∧ Forall (λ r', r' !! "id" ≠ Some (SInt 3)) (l1 ++ l2)).
Proof.
  split; (split; [reflexivity|]).
  - apply (proj1 (delete_removes_one_row fixture_attributes fixture_db)
             "NEW" new_region). reflexivity.
  - apply (proj2 (delete_removes_one_row fixture_attributes fixture_db)
             3%Z an_event). reflexivity.
Defined.

(** ** Which exceptions a computation can raise *)

Create HintDb plain.

Lemma plain_ret {A} (a : A) : plain (ret a).
Proof. intros s c dsc. done. Qed.

Lemma plain_raise {A} (e : exn) :
  (∀ c dsc, e ≠ HTTPException c dsc) → plain (@raise A e).
Proof. intros He s c dsc [= Heq]. by eapply He. Qed.

Lemma plain_bind {A B} (m : M A) (k : A → M B) :
  plain m → (∀ a, plain (k a)) → plain (bind m k).
Proof.
  intros Hm Hk s c dsc. unfold bind. specialize (Hm s c dsc).
  destruct (m s) as [[a|e] s']; simpl in *; [apply Hk|congruence].
Qed.

Lemma plain_mapM {A B} (f : A → M B) (l : list A) :
  (∀ a, plain (f a)) → plain (mapM f l).
Proof.
  intros Hf. induction l as [|x l IH]; simpl; [apply plain_ret|].
  apply plain_bind; [apply Hf|]. intros y.
  apply plain_bind; [apply IH|]. intros ys. apply plain_ret.
Qed.

(** Closes the goal for a primitive written with [match]. *)
Ltac plain_cases :=
  intros ? ? ?; simpl; repeat case_match; simpl; congruence.

Lemma plain_alloc o : plain (alloc o).
Proof. plain_cases. Qed.

Lemma plain_deref r : plain (deref r).
Proof. unfold deref. plain_cases. Qed.

Lemma plain_update r f : plain (update r f).
Proof. unfold update. plain_cases. Qed.

Lemma plain_filter_by col v st : plain (filter_by col v st).
Proof. unfold filter_by, ret, raise. plain_cases. Qed.

Lemma plain_execute st : plain (execute st).
Proof. unfold execute. plain_cases. Qed.

Lemma plain_identify m r : plain (identify m r).
Proof. unfold identify, alloc. plain_cases. Qed.

Lemma plain_session_commit : plain session_commit.
Proof. unfold session_commit. plain_cases. Qed.

#[local] Hint Resolve plain_ret plain_alloc plain_deref plain_update
  plain_filter_by plain_execute plain_identify plain_session_commit : plain.

Ltac plain_steps :=
  repeat first
    [ progress eauto 2 with plain
    | apply plain_raise; by intros ? ?
    | apply plain_bind; [|intros ?]
    | apply plain_mapM; intros ? ].

Lemma plain_scalar_one_or_none res : plain (scalar_one_or_none res).
Proof.
  unfold scalar_one_or_none. destruct res.2 as [|r [|r' t]]; plain_steps.
Qed.

Lemma plain_first res : plain (first res).
Proof. unfold first. destruct res.2 as [|r t]; plain_steps. Qed.

Lemma plain_session_add r : plain (session_add r).
Proof. apply plain_update. Qed.

Lemma plain_setattr r name c : plain (setattr r name c).
Proof. apply plain_update. Qed.

#[local] Hint Resolve plain_scalar_one_or_none plain_first plain_session_add
  plain_setattr : plain.

Lemma plain_load sch data instance partial :
  plain (load sch data instance partial).
Proof.
  unfold load. destruct (validate _ _ _); [plain_steps|].
  unfold make_instance. apply plain_bind.
  - destruct instance; [apply plain_ret|].
    unfold get_instance. destruct (assoc _ _) as [[k|]|]; plain_steps.
  - intros [r|]; plain_steps.
Qed.

Lemma plain_dump sch t : plain (dump sch t).
Proof.
  unfold dump, dump_one.
  destruct (s_many sch), t as [[r|]|rs]; plain_steps.
Qed.

#[local] Hint Resolve plain_load plain_dump : plain.

Lemma region_update_plain noc_code region_json :
  plain (region_update noc_code region_json).
Proof. unfold region_update. plain_steps. Qed.

Lemma event_update_plain event_attributes event_id event_json :
  plain (event_update event_attributes event_id event_json).
Proof. unfold event_update. plain_steps. Qed.

Lemma answers_ret {A} (P : A → Prop) (a : A) : P a → answers P (ret a).
Proof. intros Ha s b [= <-]. done. Qed.

Lemma answers_bind {A B} (P : B → Prop) (m : M A) (k : A → M B) :
  (∀ a, answers P (k a)) → answers P (bind m k).
Proof.
  intros Hk s b. unfold bind. destruct (m s) as [[a|e] s']; [apply Hk|done].
Qed.

Lemma region_update_answers_200 noc_code region_json :
  answers (λ r : response, r.2 = 200) (region_update noc_code region_json).
Proof.
  unfold region_update. repeat (apply answers_bind; intros ?).
  by apply answers_ret.
Qed.

Lemma event_update_answers_200 event_attributes event_id event_json :
  answers (λ r : response, r.2 = 200)
    (event_update event_attributes event_id event_json).
Proof.
  unfold event_update. repeat (apply answers_bind; intros ?).
  by apply answers_ret.
Qed.

(** A view that returns 200 or raises something else than an HTTP
    exception is never answered with 404. *)
Lemma dispatch_not_404 view s :
  plain view → answers (λ r : response, r.2 = 200) view →
  status_of (full_dispatch_request view s).1 ≠ 404.
Proof.
  intros Hp Ha. unfold full_dispatch_request.
  specialize (Hp s). specialize (Ha s).
  destruct (view s) as [[[body st]|e] s']; simpl in *.
  - specialize (Ha (body, st) eq_refl). simpl in Ha. by subst st.
  - destruct e; simpl; try done. by destruct (Hp code description).
Qed.

Lemma patch_never_404 event_attributes d :
  (∀ noc_code body,
     status_of (reply_of (handle event_attributes
                            (PATCH_region noc_code body) d)) ≠ 404)
  ∧ (∀ event_id body,
     status_of (reply_of (handle event_attributes
                            (PATCH_event event_id body) d)) ≠ 404).
Proof.
  split; intros k body; rewrite handle_eq; unfold reply_of; simpl;
    apply dispatch_not_404;
    auto using region_update_plain, region_update_answers_200,
      event_update_plain, event_update_answers_200.
Qed.

(** ** PATCH *)

(** [event_update] selects by the attribute name [event_id]; when the
    Event model has no such column the statement cannot even be built. *)
Lemma event_update_unknown_column event_attributes k body d :
  "event_id" ∉ columns (Event event_attributes) →
  handle event_attributes (PATCH_event k body) d
  = (ErrorPage 500 InvalidRequestError, d, 0).
Proof.
  intros Hcol. unfold handle, full_dispatch_request. simpl.
  unfold event_update. rewrite filter_by_unknown; [|done]. done.
Qed.

(** C1 (the code departs from it): no PATCH is answered with 404, whatever
    the store, the key and the payload.  Nothing looks at the [None] that
    [scalar_one_or_none] gave for a key without a row: the payload is
    loaded into a new object, which is added and committed.  With a
    payload that makes a complete row the answer is 200 and the row is
    stored; otherwise the commit fails (500).  For events the select
    itself fails (500). *)
Theorem patch_absent_key_is_not_404 :
  (∀ event_attributes d noc_code body,
     status_of (reply_of (handle event_attributes
                            (PATCH_region noc_code body) d)) ≠ 404)
  ∧ (∀ event_attributes d event_id body,
     status_of (reply_of (handle event_attributes
                            (PATCH_event event_id body) d)) ≠ 404)
  ∧ matching "NOC" (Some (SStr "ZZZ")) (regions empty_db) = []
  ∧ handle fixture_attributes
      (PATCH_region "ZZZ" (JObj [("NOC", JStr "ZZZ"); ("region", JStr "Zed")]))
      empty_db
    = (Response 200
         (JObj [("NOC", JStr "ZZZ"); ("region", JStr "Zed"); ("notes", JNull)]),
       {| regions := [ {[ "NOC" := SStr "ZZZ"; "region" := SStr "Zed" ]} ];
          events := [] |}, 1)
  ∧ handle fixture_attributes
      (PATCH_region "ZZZ" (JObj [("notes", JStr "updated")])) fixture_db
    = (ErrorPage 500 IntegrityError, fixture_db, 0)
  ∧ handle fixture_attributes
      (PATCH_event 4 (JObj [("host", JStr "Tokyo")])) fixture_db
    = (ErrorPage 500 InvalidRequestError, fixture_db, 0).
Proof.
  split_and!.
  - intros ea d. apply (proj1 (patch_never_404 ea d)).
  - intros ea d. apply (proj2 (patch_never_404 ea d)).
  - reflexivity.
  - vm_compute. reflexivity.
  - vm_compute. reflexivity.
  - vm_compute. reflexivity.
Qed.

(** C2 (the code departs from it): the event stored under the primary
    key 3 is what [get_event] finds through [filter_by(id=3)], but
    [event_update] asks for [filter_by(event_id=3)]: the select raises
    and the stored event never becomes the merge target. *)
Theorem event_update_lookup_is_not_by_id :
  matching "id" (Some (SInt 3)) (events fixture_db) = [an_event]
  ∧ handle fixture_attributes (GET_event 3) fixture_db
    = (Response 200
         (JObj [("id", JVal (SInt 3)); ("type", JStr "summer"); ("host", JNull)]),
       fixture_db, 0)
  ∧ filter_by "event_id" (Some (SInt 3)) (select (Event fixture_attributes))
    = raise InvalidRequestError
  ∧ handle fixture_attributes
      (PATCH_event 3 (JObj [("host", JStr "Tokyo")])) fixture_db
    = (ErrorPage 500 InvalidRequestError, fixture_db, 0).
Proof.
  split_and!; [reflexivity|vm_compute; reflexivity|reflexivity|].
  apply event_update_unknown_column.
  apply (bool_decide_unpack _). by vm_compute.
Qed.

(** ** Validation *)

Lemma missing_required_reported fs data a :
  a ∈ fs → a_required a = true → assoc (a_name a) data = None →
  (a_name a, ["Missing data for required field."])
    ∈ (deserialize_fields fs false data).1.
Proof.
  intros Hin Hreq Hraw. induction fs as [|a0 fs IH]; [by inversion Hin|].
  simpl. destruct (deserialize_fields fs false data) as [errs vals].
  apply elem_of_cons in Hin as [<-|Hin].
  - rewrite Hraw. simpl. rewrite Hreq. simpl. apply list_elem_of_here.
  - specialize (IH Hin).
    destruct (deserialize_field a0 false _) as [reason|[c|]]; simpl in *;
      [by apply list_elem_of_further|done|done].
Qed.

Lemma validate_errors fs partial members errs vals :
  deserialize_fields fs partial members = (errs, vals) →
  errs ++ unknown_fields fs members ≠ [] →
  validate fs partial (JObj members)
  = inl (errs ++ unknown_fields fs members).
Proof.
  intros Hd Hne. unfold validate. rewrite Hd.
  by destruct (errs ++ unknown_fields fs members).
Qed.

Lemma validate_missing fs members a :
  a ∈ fs → a_required a = true → assoc (a_name a) members = None →
  ∃ errors, validate fs false (JObj members) = inl errors
            ∧ (a_name a, ["Missing data for required field."]) ∈ errors.
Proof.
  intros Hin Hreq Hraw.
  pose proof (missing_required_reported fs members a Hin Hreq Hraw) as Hrep.
  destruct (deserialize_fields fs false members) as [errs vals] eqn:Hd.
  simpl in Hrep. eexists. split.
  - apply (validate_errors _ _ _ _ _ Hd).
    intros Hnil. apply app_eq_nil in Hnil as [-> _]. by inversion Hrep.
  - apply elem_of_app. by left.
Qed.

Lemma jsonify_messages_names errors k reasons :
  (k, reasons) ∈ errors →
  ∃ body, jsonify_messages errors = JObj body
          ∧ (k, JArr ((λ reason, JStr reason) <$> reasons)) ∈ body.
Proof.
  intros Hin. eexists. split; [done|].
  by apply (list_elem_of_fmap_2 (λ kv : string * list string,
              (kv.1, JArr ((λ reason, JStr reason) <$> kv.2))) _ _ Hin).
Qed.

(** C5: a POST whose payload fails the full validation is answered with
    400 and the JSON object that maps each offending field to its list of
    reasons; a mandatory field that is missing is one of its keys. *)
Theorem post_invalid_payload_is_400 event_attributes d :
  (∀ json_data errors,
     validate (m_fields Region) false json_data = inl errors →
     handle event_attributes (POST_regions json_data) d
     = (Response 400 (jsonify_messages errors), d, 0))
  ∧ (∀ ev_json errors,
     validate event_attributes false ev_json = inl errors →
     handle event_attributes (POST_events ev_json) d
     = (Response 400 (jsonify_messages errors), d, 0))
  ∧ (∀ members a,
     a ∈ m_fields Region → a_required a = true →
     assoc (a_name a) members = None →
     ∃ body, handle event_attributes (POST_regions (JObj members)) d
             = (Response 400 (JObj body), d, 0)
             ∧ (a_name a, JArr [JStr "Missing data for required field."]) ∈ body)
  ∧ (∀ members a,
     a ∈ event_attributes → a_required a = true →
     assoc (a_name a) members = None →
     ∃ body, handle event_attributes (POST_events (JObj members)) d
             = (Response 400 (JObj body), d, 0)
             ∧ (a_name a, JArr [JStr "Missing data for required field."]) ∈ body).
Proof.
  split_and!.
  - intros. by apply add_region_invalid.
  - intros. by apply add_event_invalid.
  - intros members a Hin Hreq Hraw.
    destruct (validate_missing _ _ _ Hin Hreq Hraw) as (errors & Hv & Hrep).
    destruct (jsonify_messages_names _ _ _ Hrep) as (body & Hbody & Hk).
    exists body. rewrite <- Hbody. split; [by apply add_region_invalid|done].
  - intros members a Hin Hreq Hraw.
    destruct (validate_missing _ _ _ Hin Hreq Hraw) as (errors & Hv & Hrep).
    destruct (jsonify_messages_names _ _ _ Hrep) as (body & Hbody & Hk).
    exists body. rewrite <- Hbody. split; [by apply add_event_invalid|done].
Qed.

Lemma post_invalid_payload_is_400_witness :
  (text_attribute "region" true ∈ m_fields Region
   ∧ a_required (text_attribute "region" true) = true
   ∧ assoc "region" [("NOC", JStr "ZZZ")] = None)
  ∧ ∃ body, handle fixture_attributes
              (POST_regions (JObj [("NOC", JStr "ZZZ")])) fixture_db
            = (Response 400 (JObj body), fixture_db, 0)
            ∧ ("region", JArr [JStr "Missing data for required field."]) ∈ body.
Proof.
  assert (Hin : text_attribute "region" true ∈ m_fields Region).
  { apply list_elem_of_further, list_elem_of_here. }
  split; [by split_and!|].
  apply (proj1 (proj2 (proj2
           (post_invalid_payload_is_400 fixture_attributes fixture_db)))
           [("NOC", JStr "ZZZ")] (text_attribute "region" true) Hin);
    reflexivity.
Defined.

(** *** What a payload that passed the validation holds *)

Lemma set_cell_eq name c (a : row) : set_cell name c a !! name = c.
Proof.
  destruct c as [v|]; simpl; [apply lookup_insert_eq|apply lookup_delete_eq].
Qed.

Lemma set_cell_ne name name' c (a : row) :
  name ≠ name' → set_cell name c a !! name' = a !! name'.
Proof.
  intros Hne. destruct c as [v|]; simpl;
    [by apply lookup_insert_ne|by apply lookup_delete_ne].
Qed.

Lemma set_cells_cons kv vals (a : row) :
  set_cells (kv :: vals) a = set_cells vals (set_cell kv.1 kv.2 a).
Proof. done. Qed.

Lemma set_cells_other vals (a : row) name :
  name ∉ vals.*1 → set_cells vals a !! name = a !! name.
Proof.
  revert a. induction vals as [|kv vals IH]; intros a Hn; [done|].
  rewrite set_cells_cons. rewrite fmap_cons in Hn.
  apply not_elem_of_cons in Hn as [Hne Hn].
  rewrite IH by done. by apply set_cell_ne.
Qed.

Lemma set_cells_nonnull vals (a : row) name :
  (∀ c, (name, c) ∈ vals → c ≠ None) →
  a !! name ≠ None ∨ name ∈ vals.*1 →
  set_cells vals a !! name ≠ None.
Proof.
  revert a. induction vals as [|[k c] vals IH]; intros a Hall Hex.
  - destruct Hex as [Ha|Hin]; [done|by inversion Hin].
  - rewrite set_cells_cons. apply IH.
    + intros c' Hc'. apply Hall. by apply list_elem_of_further.
    + simpl. destruct (decide (k = name)) as [->|Hne].
      * left. rewrite set_cell_eq. apply Hall, list_elem_of_here.
      * rewrite set_cell_ne by done. destruct Hex as [Ha|Hin]; [by left|].
        right. rewrite fmap_cons in Hin.
        apply elem_of_cons in Hin as [Heq|Hin]; [by subst|done].
Qed.

Lemma deserialize_fields_cons a fs partial data :
  deserialize_fields (a :: fs) partial data
  = let '(errs, vals) := deserialize_fields fs partial data in
    match deserialize_field a partial (assoc (a_name a) data) with
    | inl reason => ((a_name a, [reason]) :: errs, vals)
    | inr None => (errs, vals)
    | inr (Some c) => (errs, (a_name a, c) :: vals)
    end.
Proof. done. Qed.

(** The loaded dictionary only has keys that are load fields. *)
Lemma loaded_keys fs partial data :
  ∀ name, name ∈ (deserialize_fields fs partial data).2.*1 →
          name ∈ a_name <$> fs.
Proof.
  induction fs as [|a fs IH]; intros name; [done|].
  rewrite deserialize_fields_cons, fmap_cons.
  destruct (deserialize_fields fs partial data) as [errs vals].
  destruct (deserialize_field a partial _) as [reason|[c|]]; simpl in *.
  - intros H. by apply list_elem_of_further, IH.
  - intros H. apply elem_of_cons in H as [->|H];
      [apply list_elem_of_here|by apply list_elem_of_further, IH].
  - intros H. by apply list_elem_of_further, IH.
Qed.

(** A field that was sent with a value other than [null] is loaded with a
    value other than [None]. *)
Lemma loaded_nonnull fs partial data name c j :
  (name, c) ∈ (deserialize_fields fs partial data).2 →
  assoc name data = Some j → j ≠ JNull → c ≠ None.
Proof.
  intros Hin Hraw Hj. induction fs as [|a fs IH]; [by inversion Hin|].
  rewrite deserialize_fields_cons in Hin.
  destruct (deserialize_fields fs partial data) as [errs vals].
  destruct (deserialize_field a partial _) as [reason|[c'|]] eqn:Hf;
    simpl in *; [by apply IH| |by apply IH].
  apply elem_of_cons in Hin as [[= -> ->]|Hin]; [|by apply IH].
  rewrite Hraw in Hf. unfold deserialize_field in Hf.
  destruct j; try done;
    destruct (a_decode a _); by simplify_eq.
Qed.

(** Without errors, every required field was sent, with a value. *)
Lemma valid_required_sent fs data vals f :
  deserialize_fields fs false data = ([], vals) →
  f ∈ fs → a_required f = true →
  (∃ j, assoc (a_name f) data = Some j ∧ j ≠ JNull)
  ∧ a_name f ∈ vals.*1.
Proof.
  revert vals. induction fs as [|a fs IH]; intros vals Hd Hin Hreq;
    [by inversion Hin|].
  rewrite deserialize_fields_cons in Hd.
  destruct (deserialize_fields fs false data) as [errs vals'].
  destruct (deserialize_field a false _) as [reason|[c|]] eqn:Hf;
    [done| |]; injection Hd as -> <-.
  - apply elem_of_cons in Hin as [->|Hin].
    + split; [|apply list_elem_of_here].
      unfold deserialize_field in Hf. rewrite Hreq in Hf.
      destruct (assoc (a_name a) data) as [j|]; [|done].
      exists j. split; [done|]. by intros ->.
    + destruct (IH vals' eq_refl Hin Hreq) as [Hs Hk].
      split; [done|]. rewrite fmap_cons. by apply list_elem_of_further.
  - apply elem_of_cons in Hin as [->|Hin]; [|by apply IH].
    unfold deserialize_field in Hf. rewrite Hreq in Hf.
    destruct (assoc (a_name a) data) as [[]|]; try done;
      by destruct (a_decode a _).
Qed.

Lemma valid_payload fs data vals :
  validate fs false data = inr vals →
  ∃ members, data = JObj members
             ∧ deserialize_fields fs false members = ([], vals).
Proof.
  unfold validate. destruct data as [| |items|members]; try done.
  destruct (deserialize_fields fs false members) as [errs vals'] eqn:Hd.
  destruct (errs ++ unknown_fields fs members) eqn:Happ; [|done].
  intros [= <-]. apply app_eq_nil in Happ as [-> _]. by exists members.
Qed.

(** A payload that passed the full validation makes a row in which the
    required columns are not NULL, whatever the row held before. *)
Lemma valid_required_nonnull fs data vals (base : row) f :
  validate fs false data = inr vals →
  f ∈ fs → a_required f = true →
  set_cells vals base !! a_name f ≠ None.
Proof.
  intros Hv Hin Hreq. destruct (valid_payload _ _ _ Hv) as (members & -> & Hd).
  destruct (valid_required_sent _ _ _ _ Hd Hin Hreq) as [(j & Hraw & Hj) Hk].
  apply set_cells_nonnull; [|by right].
  intros c Hc. eapply (loaded_nonnull fs false members); [|done|done].
  by rewrite Hd.
Qed.

Lemma valid_keys fs data vals name :
  validate fs false data = inr vals → name ∉ a_name <$> fs → name ∉ vals.*1.
Proof.
  intros Hv Hn Hin. destruct (valid_payload _ _ _ Hv) as (members & -> & Hd).
  apply Hn, (loaded_keys fs false members). by rewrite Hd.
Qed.

Lemma assoc_None {A} name (l : list (string * A)) :
  name ∉ l.*1 → assoc name l = None.
Proof.
  induction l as [|[k v] l IH]; [done|]. rewrite fmap_cons. simpl.
  intros Hn. apply not_elem_of_cons in Hn as [Hne Hn].
  rewrite decide_False by done. by apply IH.
Qed.

(** *** The store-generated key *)

Lemma foldr_max_le (z : Z) (zs : list Z) :
  (z ≤ foldr Z.max z zs)%Z ∧ ∀ y, y ∈ zs → (y ≤ foldr Z.max z zs)%Z.
Proof.
  induction zs as [|x zs [IHz IH]]; simpl.
  - split; [lia|]. intros y Hy. by inversion Hy.
  - split; [lia|]. intros y Hy.
    apply elem_of_cons in Hy as [->|Hy]; [lia|]. specialize (IH y Hy). lia.
Qed.

Lemma row_id_lt pk (t : list row) r :
  r ∈ t → (row_id pk r < next_id pk t)%Z.
Proof.
  intros Hin. apply (list_elem_of_fmap_2 (row_id pk)) in Hin.
  unfold next_id. destruct (row_id pk <$> t) as [|z zs]; [by inversion Hin|].
  destruct (foldr_max_le z zs) as [Hz Hzs].
  apply elem_of_cons in Hin as [->|Hin]; [lia|]. specialize (Hzs _ Hin). lia.
Qed.

Lemma matching_none col v (t : list row) :
  Forall (λ r, r !! col ≠ v) t → matching col v t = [].
Proof.
  unfold matching. induction 1 as [|x t Hx Ht IH]; [done|].
  rewrite filter_cons. by rewrite decide_False.
Qed.

Lemma next_id_fresh pk (t : list row) :
  matching pk (Some (SInt (next_id pk t))) t = [].
Proof.
  apply matching_none, Forall_forall. intros r Hin Hk.
  pose proof (row_id_lt pk t r Hin) as Hlt.
  remember (next_id pk t) as top.
  unfold row_id in Hlt. rewrite Hk in Hlt. lia.
Qed.

Lemma not_null_ok_intro m (a : row) :
  a !! m_pk m ≠ None →
  (∀ f, f ∈ m_fields m → a_required f = true → a !! a_name f ≠ None) →
  not_null_ok m a = true.
Proof.
  intros Hpk Hreq. unfold not_null_ok.
  apply andb_true_intro. split; [by apply bool_decide_eq_true|].
  apply forallb_forall. intros f Hin. apply list_elem_of_In in Hin.
  destruct (a_required f) eqn:Hf; [|done]. simpl.
  apply bool_decide_eq_true. by apply Hreq.
Qed.

(** ** POST *)

(** INSERT of a pending object whose key the store generates. *)
Lemma flush_pending_generated m (a : row) k d :
  m_generated m = true → a !! m_pk m = None →
  (∀ f, f ∈ m_fields m → a_required f = true → a !! a_name f ≠ None) →
  let t := table (m_entity m) d in
  let a' := <[m_pk m := SInt (next_id (m_pk m) t)]> a in
  flush_object {| o_model := m; o_state := Pending; o_key := k;
                  o_dirty := false; o_attrs := a |} d
  = Some ({| o_model := m; o_state := Persistent;
             o_key := Some (SInt (next_id (m_pk m) t)); o_dirty := false;
             o_attrs := a' |},
          set_table (m_entity m) (t ++ [a']) d).
Proof.
  intros Hgen Hpk Hreq t a'. unfold flush_object. simpl. fold t.
  rewrite Hgen, Hpk. rewrite bool_decide_eq_true_2 by done. simpl. fold a'.
  assert (Hk : a' !! m_pk m = Some (SInt (next_id (m_pk m) t))).
  { apply lookup_insert_eq. }
  rewrite not_null_ok_intro; [| by rewrite Hk |].
  - unfold key_free. rewrite Hk, next_id_fresh.
    rewrite bool_decide_eq_true_2 by done. done.
  - intros f Hin Hf. unfold a'.
    destruct (decide (m_pk m = a_name f)) as [<-|Hne];
      [by rewrite lookup_insert_eq|].
    rewrite lookup_insert_ne by done. by apply Hreq.
Qed.

(** INSERT of a pending object that brings its key. *)
Lemma flush_pending_keyed m (a : row) k v d :
  m_generated m = false → a !! m_pk m = Some v →
  (∀ f, f ∈ m_fields m → a_required f = true → a !! a_name f ≠ None) →
  matching (m_pk m) (Some v) (table (m_entity m) d) = [] →
  flush_object {| o_model := m; o_state := Pending; o_key := k;
                  o_dirty := false; o_attrs := a |} d
  = Some ({| o_model := m; o_state := Persistent; o_key := Some v;
             o_dirty := false; o_attrs := a |},
          set_table (m_entity m) (table (m_entity m) d ++ [a]) d).
Proof.
  intros Hgen Hpk Hreq Hfree. unfold flush_object. simpl.
  rewrite Hgen. simpl.
  rewrite not_null_ok_intro; [| by rewrite Hpk | done].
  unfold key_free. rewrite Hpk, Hfree.
  rewrite bool_decide_eq_true_2 by done. done.
Qed.

(** UPDATE of a changed object that keeps its key. *)
Lemma flush_dirty_same_key m (a : row) k d :
  a !! m_pk m = k → k ≠ None →
  (∀ f, f ∈ m_fields m → a_required f = true → a !! a_name f ≠ None) →
  flush_object {| o_model := m; o_state := Persistent; o_key := k;
                  o_dirty := true; o_attrs := a |} d
  = Some ({| o_model := m; o_state := Persistent; o_key := k;
             o_dirty := false; o_attrs := a |},
          set_table (m_entity m)
            ((λ r, if decide (r !! m_pk m = k) then a else r)
               <$> table (m_entity m) d) d).
Proof.
  intros Hpk Hk Hreq. unfold flush_object. simpl.
  rewrite not_null_ok_intro; [| by rewrite Hpk | done].
  rewrite bool_decide_eq_true_2 by done. simpl. by rewrite Hpk.
Qed.

Lemma add_event_valid event_attributes d ev_json valid :
  "id" ∉ (a_name <$> event_attributes) →
  validate event_attributes false ev_json = inr valid →
  handle event_attributes (POST_events ev_json) d
  = (Response 201
       (message ("Event added with id= " ++ pretty (next_id "id" (events d)))),
     {| regions := regions d;
        events := events d
                  ++ [ <["id" := SInt (next_id "id" (events d))]>
                         (set_cells valid ∅) ] |}, 1).
Proof.
  intros Hid Hv.
  assert (Hnone : set_cells valid (∅ : row) !! "id" = None).
  { rewrite set_cells_other; [done|]. by eapply valid_keys. }
  unfold handle, full_dispatch_request. simpl.
  unfold add_event, try_except, load. simpl. rewrite Hv.
  unfold make_instance, get_instance. simpl.
  rewrite (assoc_None "id" valid); [|by eapply valid_keys].
  rewrite bind_ret.
  unfold bind at 1. simpl.
  unfold bind at 1. simpl.
  unfold bind at 1, session_commit. simpl.
  rewrite (flush_pending_generated (Event event_attributes)); [|done|done|].
  - simpl. unfold bind, deref. simpl. by rewrite lookup_insert_eq.
  - intros f Hin Hreq. by eapply valid_required_nonnull.
Qed.

#[local] Arguments flush_object : simpl never.
#[local] Arguments matching : simpl never.
#[local] Arguments first : simpl never.

(** What a valid Region payload was loaded into. *)
Lemma Region_valid json_data valid :
  validate (m_fields Region) false json_data = inr valid →
  ∃ k rg rest,
    valid = ("NOC", Some (SStr k)) :: ("region", Some (SStr rg)) :: rest
    ∧ (rest = [] ∨ ∃ c, rest = [("notes", c)]).
Proof.
  intros Hv. destruct (valid_payload _ _ _ Hv) as (members & -> & Hd).
  clear Hv. simpl in Hd. unfold deserialize_field in Hd. simpl in Hd.
  destruct (assoc "notes" members) as [[|[b|z|s]|l|o]|]; simpl in Hd; try done;
    (destruct (assoc "region" members) as [[|[b'|z'|s']|l'|o']|];
       simpl in Hd; try done);
    (destruct (assoc "NOC" members) as [[|[b''|z''|s'']|l''|o'']|];
       simpl in Hd; try done);
    injection Hd as <-; eauto 8.
Qed.

Lemma Region_valid_cells valid k rg rest (base : row) :
  valid = ("NOC", Some (SStr k)) :: ("region", Some (SStr rg)) :: rest →
  rest = [] ∨ (∃ c, rest = [("notes", c)]) →
  set_cells valid base !! "NOC" = Some (SStr k)
  ∧ set_cells valid base !! "region" = Some (SStr rg).
Proof.
  intros -> [->|[c ->]]; unfold set_cells; simpl.
  - split; by simplify_map_eq.
  - rewrite !set_cell_ne by done. split; by simplify_map_eq.
Qed.

(** [get_instance] in a session that has not fetched anything yet. *)
Lemma get_instance_none m valid k d :
  assoc (m_pk m) valid = Some (Some k) → m_pk m ∈ columns m →
  matching (m_pk m) (Some k) (table (m_entity m) d) = [] →
  get_instance m valid (new_session d) = (Return None, new_session d).
Proof.
  intros Hassoc Hcol Hm. unfold get_instance. rewrite Hassoc.
  rewrite filter_by_column by done. rewrite bind_ret.
  unfold bind, execute, first. simpl. by rewrite Hm.
Qed.

Lemma get_instance_first m valid k d r l :
  assoc (m_pk m) valid = Some (Some k) → m_pk m ∈ columns m →
  matching (m_pk m) (Some k) (table (m_entity m) d) = r :: l →
  get_instance m valid (new_session d)
  = (Return (Some 0),
     {| db := d;
        heap := [ {| o_model := m; o_state := Persistent; o_key := r !! m_pk m;
                     o_dirty := false; o_attrs := r |} ];
        commits := 0 |}).
Proof.
  intros Hassoc Hcol Hm. unfold get_instance. rewrite Hassoc.
  rewrite filter_by_column by done. rewrite bind_ret.
  unfold bind, execute, first. simpl. by rewrite Hm.
Qed.

(** The [setattr] loop of [make_instance] on the only object of the
    session. *)
Lemma setattr_loop vals o d n :
  ∃ l, mapM (λ kv : string * cell, setattr 0 kv.1 kv.2) vals
         {| db := d; heap := [o]; commits := n |}
       = (Return l,
          {| db := d;
             heap := [ {| o_model := o_model o; o_state := o_state o;
                          o_key := o_key o;
                          o_dirty := if vals is [] then o_dirty o else true;
                          o_attrs := set_cells vals (o_attrs o) |} ];
             commits := n |}).
Proof.
  revert o. induction vals as [|[name c] vals IH]; intros o.
  - exists []. by destruct o.
  - destruct (IH {| o_model := o_model o; o_state := o_state o;
                    o_key := o_key o; o_dirty := true;
                    o_attrs := set_cell name c (o_attrs o) |}) as [l Hl].
    exists (() :: l). simpl. unfold bind at 1. simpl.
    unfold set_heap. simpl. unfold bind at 1. rewrite Hl. simpl.
    by destruct vals.
Qed.

Lemma setattr_loop_nonempty vals o d n :
  vals ≠ [] →
  ∃ l, mapM (λ kv : string * cell, setattr 0 kv.1 kv.2) vals
         {| db := d; heap := [o]; commits := n |}
       = (Return l,
          {| db := d;
             heap := [ {| o_model := o_model o; o_state := o_state o;
                          o_key := o_key o; o_dirty := true;
                          o_attrs := set_cells vals (o_attrs o) |} ];
             commits := n |}).
Proof.
  intros Hne. destruct (setattr_loop vals o d n) as [l Hl].
  exists l. rewrite Hl. by destruct vals.
Qed.

#[local] Arguments get_instance : simpl never.
#[local] Arguments mapM : simpl never.

(** POST of a region whose NOC has no row: the row is appended. *)
Lemma add_region_insert event_attributes d json_data valid k :
  validate (m_fields Region) false json_data = inr valid →
  assoc "NOC" valid = Some (Some (SStr k)) →
  matching "NOC" (Some (SStr k)) (regions d) = [] →
  handle event_attributes (POST_regions json_data) d
  = (Response 201 (message ("Region added with NOC= " ++ k)),
     {| regions := regions d ++ [set_cells valid ∅]; events := events d |}, 1).
Proof.
  intros Hv Hassoc Hm.
  destruct (Region_valid _ _ Hv) as (k' & rg & rest & Hvalid & Hrest).
  assert (k' = k) as -> by (subst valid; by injection Hassoc).
  destruct (Region_valid_cells valid k rg rest ∅ Hvalid Hrest) as [HNOC _].
  unfold handle, full_dispatch_request, view_function, add_region, try_except,
    load, make_instance, region_schema, bind.
  cbn [s_model]. rewrite Hv.
  rewrite (get_instance_none Region valid (SStr k) d Hassoc NOC_column Hm).
  simpl. unfold session_commit. simpl.
  rewrite (flush_pending_keyed Region _ _ (SStr k)); [|done|done| |done].
  - simpl. by rewrite HNOC.
  - intros f Hin Hf. by eapply valid_required_nonnull.
Qed.

(** ** The claims on POST, commits and atomicity *)

(** C6 as it is written does not hold: the message of a created region is
    not ["Region added with id=NEW"] and that of a created event is not
    ["Event added with id=1"]; and a valid region payload whose NOC is
    stored is answered with 201 and "added" although no entity is created:
    the table has as many rows after as before. *)
Lemma post_message_is_not_as_claimed :
  ¬ (reply_of (handle fixture_attributes (POST_regions scenario_region) empty_db)
     = Response 201 (message ("Region added with id=" ++ "NEW")))
  ∧ ¬ (reply_of (handle fixture_attributes (POST_events scenario_event) empty_db)
       = Response 201 (message ("Event added with id=" ++ pretty 1%Z)))
  ∧ (reply_of (handle fixture_attributes (POST_regions scenario_region) fixture_db)
     = Response 201 (message "Region added with NOC= NEW")
     ∧ length (regions (stored_after
                 (handle fixture_attributes (POST_regions scenario_region)
                    fixture_db)))
       = length (regions fixture_db)).
Proof. split_and!; vm_compute; try done; by intros [=]. Qed.

(** C6, amended: every region payload that passes the full validation
    carries a NOC; when no stored region has that NOC, the POST is answered
    with 201 and [{"message": "Region added with NOC= <NOC>"}], and the
    region table is the one before with one row appended, the row of the
    payload's values, whose key is that NOC.  For an event model whose id is
    not a field of the payload (the store assigns it), a payload that passes
    the full validation is answered with 201 and
    [{"message": "Event added with id= <id>"}], and the event table is the
    one before with one row appended, the row of the payload's values under
    the key <id>, which no stored event had.  Either way the other table is
    as it was and exactly one commit was completed. *)
Theorem post_valid_payload_is_201 event_attributes d :
  (∀ json_data valid,
     validate (m_fields Region) false json_data = inr valid →
     ∃ k, assoc "NOC" valid = Some (Some (SStr k)))
  ∧ (∀ json_data valid k,
     validate (m_fields Region) false json_data = inr valid →
     assoc "NOC" valid = Some (Some (SStr k)) →
     matching "NOC" (Some (SStr k)) (regions d) = [] →
     handle event_attributes (POST_regions json_data) d
     = (Response 201 (message ("Region added with NOC= " ++ k)),
        {| regions := regions d ++ [set_cells valid ∅]; events := events d |},
        1)
     ∧ set_cells valid (∅ : row) !! "NOC" = Some (SStr k))
  ∧ (∀ ev_json valid,
     "id" ∉ (a_name <$> event_attributes) →
     validate event_attributes false ev_json = inr valid →
     ∃ k, handle event_attributes (POST_events ev_json) d
          = (Response 201 (message ("Event added with id= " ++ pretty k)),
             {| regions := regions d;
                events := events d
                          ++ [ <["id" := SInt k]> (set_cells valid ∅) ] |}, 1)
       ∧ matching "id" (Some (SInt k)) (events d) = []).
Proof.
  split_and!.
  - intros json_data valid Hv.
    destruct (Region_valid _ _ Hv) as (k & rg & rest & -> & _). by exists k.
  - intros json_data valid k Hv Hassoc Hm.
    split; [by apply add_region_insert|].
    destruct (Region_valid _ _ Hv) as (k' & rg & rest & Hvalid & Hrest).
    assert (k' = k) as -> by (subst valid; by injection Hassoc).
    by destruct (Region_valid_cells valid k rg rest ∅ Hvalid Hrest).
  - intros ev_json valid Hid Hv.
    exists (next_id "id" (events d)).
    split; [by apply add_event_valid|apply next_id_fresh].
Qed.

Lemma post_valid_payload_is_201_witness :
  let valid := [("NOC", Some (SStr "NEW")); ("region", Some (SStr "A new region"));
                ("notes", None)] in
  (validate (m_fields Region) false scenario_region = inr valid
   ∧ assoc "NOC" valid = Some (Some (SStr "NEW"))
   ∧ matching "NOC" (Some (SStr "NEW")) (regions empty_db) = []
   ∧ handle fixture_attributes (POST_regions scenario_region) empty_db
     = (Response 201 (message "Region added with NOC= NEW"),
        {| regions := regions empty_db ++ [set_cells valid ∅];
           events := events empty_db |}, 1)
   ∧ set_cells valid (∅ : row) !! "NOC" = Some (SStr "NEW"))
  ∧ (("id" ∉ (a_name <$> fixture_attributes))
     ∧ validate fixture_attributes false scenario_event
       = inr [("type", Some (SStr "winter"))]
     ∧ ∃ k, handle fixture_attributes (POST_events scenario_event) fixture_db
            = (Response 201 (message ("Event added with id= " ++ pretty k)),
               {| regions := regions fixture_db;
                  events := events fixture_db
                            ++ [ <["id" := SInt k]>
                                   (set_cells [("type", Some (SStr "winter"))]
                                      ∅) ] |}, 1)
         ∧ matching "id" (Some (SInt k)) (events fixture_db) = []).
Proof.
  assert (Hid : "id" ∉ (a_name <$> fixture_attributes)).
  { apply (bool_decide_unpack _). by vm_compute. }
  split.
  - split; [reflexivity|]. split; [reflexivity|]. split; [reflexivity|].
    apply (proj1 (proj2 (post_valid_payload_is_201 fixture_attributes empty_db))
             scenario_region); reflexivity.
  - split; [exact Hid|]. split; [reflexivity|].
    apply (proj2 (proj2 (post_valid_payload_is_201 fixture_attributes
                           fixture_db))
             scenario_event [("type", Some (SStr "winter"))] Hid). reflexivity.
Defined.

(** C8: a request completes at most one commit; when it completes none
    (any failure before the commit) the stored tables are what they were;
    a POST whose payload fails the validation is such a request. *)
Theorem request_atomic event_attributes d :
  (∀ req, let x := handle event_attributes req d in
          commits_in x ≤ 1 ∧ (commits_in x = 0 → stored_after x = d))
  ∧ (∀ json_data errors,
       validate (m_fields Region) false json_data = inl errors →
       let x := handle event_attributes (POST_regions json_data) d in
       stored_after x = d ∧ commits_in x = 0)
  ∧ (∀ ev_json errors,
       validate event_attributes false ev_json = inl errors →
       let x := handle event_attributes (POST_events ev_json) d in
       stored_after x = d ∧ commits_in x = 0).
Proof.
  split_and!.
  - intros req x. subst x.
    destruct (request_frame event_attributes req d) as [Hget Hmut].
    destruct (is_GET req).
    + destruct (Hget eq_refl) as [-> ->]. split; [lia|done].
    + destruct (Hmut eq_refl) as [->|(-> & -> & _)]; split; (lia || done).
  - intros json_data errors Hv x. subst x.
    by rewrite (add_region_invalid _ _ _ _ Hv).
  - intros ev_json errors Hv x. subst x.
    by rewrite (add_event_invalid _ _ _ _ Hv).
Qed.

Lemma request_atomic_witness :
  validate (m_fields Region) false (JObj [("NOC", JStr "ZZZ")])
  = inl [("region", ["Missing data for required field."])]
  ∧ stored_after (handle fixture_attributes
                    (POST_regions (JObj [("NOC", JStr "ZZZ")])) fixture_db)
    = fixture_db
  ∧ commits_in (handle fixture_attributes
                  (POST_regions (JObj [("NOC", JStr "ZZZ")])) fixture_db) = 0.
Proof.
  split; [reflexivity|].
  apply (proj1 (proj2 (request_atomic fixture_attributes fixture_db))
           (JObj [("NOC", JStr "ZZZ")])
           [("region", ["Missing data for required field."])]).
  reflexivity.
Defined.

(** C9: a GET leaves the stored tables as they are and commits nothing;
    a POST, PATCH or DELETE that succeeds has completed exactly one
    commit. *)
Theorem commit_discipline event_attributes req d :
  let x := handle event_attributes req d in
  (is_GET req = true → stored_after x = d ∧ commits_in x = 0)
  ∧ (is_GET req = false → succeeded (reply_of x) = true → commits_in x = 1).
Proof.
  intros x. subst x.
  destruct (request_frame event_attributes req d) as [Hget Hmut].
  split; [done|]. intros Hreq Hok.
  destruct (Hmut Hreq) as [->|(_ & _ & Hf)]; [done|]. by rewrite Hf in Hok.
Qed.

Lemma commit_discipline_witness :
  (is_GET GET_regions = true
   ∧ stored_after (handle fixture_attributes GET_regions fixture_db) = fixture_db
   ∧ commits_in (handle fixture_attributes GET_regions fixture_db) = 0)
  ∧ (is_GET (DELETE_region "NEW") = false
     ∧ succeeded (reply_of (handle fixture_attributes (DELETE_region "NEW")
                              fixture_db)) = true
     ∧ commits_in (handle fixture_attributes (DELETE_region "NEW") fixture_db)
       = 1).
Proof.
  split.
  - split; [reflexivity|].
    apply (proj1 (commit_discipline fixture_attributes GET_regions fixture_db)).
    reflexivity.
  - split; [reflexivity|]. split; [reflexivity|].
    apply (proj2 (commit_discipline fixture_attributes (DELETE_region "NEW")
                    fixture_db)); reflexivity.
Defined.

(** * Further properties of the views *)

(** ** GET by key, for every store *)

(** X1: [get_region] in full: a stored code gives 200 and the object of its
    row, a code without a row gives 404 and the error body of
    [resource_not_found]; the store is as it was and nothing is committed. *)
Theorem get_region_answer event_attributes d code :
  (∀ r, matching "NOC" (Some (SStr code)) (regions d) = [r] →
     handle event_attributes (GET_region code) d
     = (Response 200
          (JObj [("NOC", json_of_cell (r !! "NOC"));
                 ("region", json_of_cell (r !! "region"));
                 ("notes", json_of_cell (r !! "notes"))]), d, 0))
  ∧ (matching "NOC" (Some (SStr code)) (regions d) = [] →
     handle event_attributes (GET_region code) d
     = (Response 404
          (JObj [("error", JStr "404 Not Found: Region not found.")]), d, 0)).
Proof.
  split.
  - intros r Hm. by rewrite (get_region_found event_attributes d code r Hm).
  - apply get_region_absent.
Qed.

Lemma get_region_answer_witness :
  (matching "NOC" (Some (SStr "NEW")) (regions fixture_db) = [new_region]
   ∧ handle fixture_attributes (GET_region "NEW") fixture_db
     = (Response 200
          (JObj [("NOC", JStr "NEW"); ("region", JStr "A new region");
                 ("notes", JNull)]), fixture_db, 0))
  ∧ (matching "NOC" (Some (SStr "ZZZ")) (regions fixture_db) = []
     ∧ handle fixture_attributes (GET_region "ZZZ") fixture_db
       = (Response 404
            (JObj [("error", JStr "404 Not Found: Region not found.")]),
          fixture_db, 0)).
Proof.
  split; (split; [reflexivity|]).
  - apply (proj1 (get_region_answer fixture_attributes fixture_db "NEW")
             new_region). reflexivity.
  - apply (proj2 (get_region_answer fixture_attributes fixture_db "ZZZ")).
    reflexivity.
Defined.

Lemma assoc_fmap_names {A} (f : string → A) (l : list attribute) name :
  name ∈ (a_name <$> l) →
  assoc name ((λ a, (a_name a, f (a_name a))) <$> l) = Some (f name).
Proof.
  induction l as [|a l IH]; [by inversion 1|].
  rewrite !fmap_cons. intros Hin. simpl.
  destruct (decide (name = a_name a)) as [->|Hne]; [done|].
  apply elem_of_cons in Hin as [Hin|Hin]; [done|]. by apply IH.
Qed.

(** X2: [get_event] for a stored id: 200 and a JSON object that has the
    member [id] with the id, a member for each attribute of the model with
    the value the row has for it ([null] where it has none), and no other
    member; the store is as it was and nothing is committed.  Nothing is
    said on the order of the members. *)
Theorem get_event_answer event_attributes d k r :
  matching "id" (Some (SInt k)) (events d) = [r] →
  ∃ members,
    handle event_attributes (GET_event k) d
    = (Response 200 (JObj members), d, 0)
    ∧ assoc "id" members = Some (JVal (SInt k))
    ∧ (∀ a, a ∈ event_attributes →
         assoc (a_name a) members = Some (json_of_cell (r !! a_name a)))
    ∧ (∀ name, name ∈ members.*1 →
         name = "id" ∨ name ∈ (a_name <$> event_attributes)).
Proof.
  intros Hm. pose proof (matching_single_key _ _ _ _ Hm) as Hk.
  exists (("id", JVal (SInt k))
          :: ((λ a, (a_name a, json_of_cell (r !! a_name a)))
                <$> event_attributes)).
  split_and!.
  - rewrite (get_event_found event_attributes d k r Hm).
    unfold dump_row. simpl. rewrite Hk.
    unfold field_names. simpl. by rewrite <- list_fmap_compose.
  - done.
  - intros a Ha. simpl.
    destruct (decide (a_name a = "id")) as [->|Hne]; [by rewrite Hk|].
    apply (assoc_fmap_names (λ c, json_of_cell (r !! c))).
    by apply list_elem_of_fmap_2.
  - intros name Hin. rewrite fmap_cons in Hin.
    apply elem_of_cons in Hin as [Hin|Hin]; [by left|right].
    by rewrite <- list_fmap_compose in Hin.
Qed.

Lemma get_event_answer_witness :
  matching "id" (Some (SInt 3)) (events fixture_db) = [an_event]
  ∧ ∃ members,
      handle fixture_attributes (GET_event 3) fixture_db
      = (Response 200 (JObj members), fixture_db, 0)
      ∧ assoc "id" members = Some (JVal (SInt 3))
      ∧ (∀ a, a ∈ fixture_attributes →
           assoc (a_name a) members
           = Some (json_of_cell (an_event !! a_name a)))
      ∧ (∀ name, name ∈ members.*1 →
           name = "id" ∨ name ∈ (a_name <$> fixture_attributes)).
Proof.
  split; [reflexivity|].
  apply (get_event_answer fixture_attributes fixture_db 3%Z an_event).
  reflexivity.
Defined.

(** ** PATCH of a stored region *)

(** What a Region payload that passed the partial validation was loaded
    into: load fields only, each at most once, none of the two required
    ones as [None]. *)
Lemma Region_partial_valid json_data valid :
  validate (m_fields Region) true json_data = inr valid →
  NoDup valid.*1
  ∧ ∀ name c, (name, c) ∈ valid →
      name ∈ ["NOC"; "region"; "notes"]
      ∧ (name = "NOC" ∨ name = "region" → c ≠ None).
Proof.
  unfold validate. destruct json_data as [| |items|members]; try done.
  destruct (deserialize_fields (m_fields Region) true members)
    as [errs vals] eqn:Hd.
  destruct (errs ++ unknown_fields (m_fields Region) members) eqn:Happ; [|done].
  intros [= <-]. apply app_eq_nil in Happ as [-> _].
  simpl in Hd. unfold deserialize_field in Hd. simpl in Hd.
  destruct (assoc "notes" members) as [[|[b|z|s]|l|o]|]; simpl in Hd; try done;
    (destruct (assoc "region" members) as [[|[b'|z'|s']|l'|o']|];
       simpl in Hd; try done);
    (destruct (assoc "NOC" members) as [[|[b''|z''|s'']|l''|o'']|];
       simpl in Hd; try done);
    injection Hd as <-;
    (split; [by apply (bool_decide_unpack _); vm_compute|]);
    intros name c Hin;
    repeat (apply elem_of_cons in Hin as [[= -> ->]|Hin];
            [split; [by apply (bool_decide_unpack _)|by intros [?|?]]|]);
    by apply elem_of_nil in Hin.
Qed.

Lemma set_cells_lookup vals (a : row) name c :
  NoDup vals.*1 → (name, c) ∈ vals → set_cells vals a !! name = c.
Proof.
  revert a. induction vals as [|[k c'] vals IH]; intros a Hnd Hin;
    [by apply elem_of_nil in Hin|].
  rewrite fmap_cons in Hnd. apply NoDup_cons in Hnd as [Hk Hnd].
  rewrite set_cells_cons. simpl.
  apply elem_of_cons in Hin as [[= -> ->]|Hin].
  - rewrite set_cells_other by done. apply set_cell_eq.
  - by apply IH.
Qed.

Lemma put_row_split col v (a : row) (t : list row) r :
  matching col v t = [r] →
  ∃ l1 l2, t = l1 ++ r :: l2 ∧ put_row col v a t = l1 ++ a :: l2
           ∧ Forall (λ r', r' !! col ≠ v) (l1 ++ l2).
Proof.
  intros Hm. pose proof (matching_single_key _ _ _ _ Hm) as Hr.
  destruct (matching_single_split _ _ _ _ Hm) as (l1 & l2 & -> & _ & Hall).
  exists l1, l2. split_and!; [done| |done].
  apply Forall_app in Hall as [H1 H2].
  unfold put_row. rewrite fmap_app, fmap_cons. rewrite decide_True by done.
  f_equal; [|f_equal].
  - clear -H1. induction H1 as [|x l Hx Hl IH]; [done|].
    rewrite fmap_cons, decide_False by done. by rewrite IH.
  - clear -H2. induction H2 as [|x l Hx Hl IH]; [done|].
    rewrite fmap_cons, decide_False by done. by rewrite IH.
Qed.

Lemma matching_app col v (l1 l2 : list row) :
  matching col v (l1 ++ l2) = matching col v l1 ++ matching col v l2.
Proof. unfold matching. apply filter_app. Qed.

Lemma matching_put_row col v (a : row) (t : list row) r :
  matching col v t = [r] → a !! col = v →
  matching col v (put_row col v a t) = [a].
Proof.
  intros Hm Ha.
  destruct (put_row_split col v a t r Hm) as (l1 & l2 & _ & -> & Hall).
  apply Forall_app in Hall as [H1 H2].
  rewrite matching_app, (matching_none _ _ _ H1).
  unfold matching at 1. rewrite filter_cons, decide_True by done.
  fold (matching col v l2). by rewrite (matching_none _ _ _ H2).
Qed.

Lemma put_row_same col v (t : list row) r :
  matching col v t = [r] → put_row col v r t = t.
Proof.
  intros Hm. destruct (put_row_split col v r t r Hm) as (l1 & l2 & Ht & -> & _).
  done.
Qed.

(** Fetching the row of the object that the session already holds. *)
Lemma identify_known m (r : row) o d n :
  m_entity (o_model o) = m_entity m → o_state o = Persistent →
  o_key o = r !! m_pk m →
  identify m r {| db := d; heap := [o]; commits := n |}
  = (Return 0, {| db := d; heap := [o]; commits := n |}).
Proof.
  intros He Hs Hk. unfold identify. simpl. by rewrite decide_True.
Qed.

Lemma scalar_one_or_none_known m (r : row) o d n :
  m_entity (o_model o) = m_entity m → o_state o = Persistent →
  o_key o = r !! m_pk m →
  scalar_one_or_none (m, [r]) {| db := d; heap := [o]; commits := n |}
  = (Return (Some 0), {| db := d; heap := [o]; commits := n |}).
Proof.
  intros He Hs Hk. unfold scalar_one_or_none, bind. simpl.
  by rewrite identify_known.
Qed.

Lemma region_update_run d k r body valid :
  matching "NOC" (Some (SStr k)) (regions d) = [r] →
  r !! "region" ≠ None →
  validate (m_fields Region) true body = inr valid →
  "NOC" ∉ valid.*1 →
  ∃ h, region_update k body (new_session d)
       = (Return (dump_row Region (set_cells valid r), 200),
          {| db := {| regions := put_row "NOC" (Some (SStr k))
                                   (set_cells valid r) (regions d);
                      events := events d |};
             heap := h; commits := 1 |}).
Proof.
  intros Hm Hregion Hv Hkey.
  pose proof (matching_single_key _ _ _ _ Hm) as Hk.
  destruct (Region_partial_valid _ _ Hv) as [Hnd Hvals].
  assert (HNOC : set_cells valid r !! "NOC" = Some (SStr k)).
  { by rewrite set_cells_other. }
  assert (Hok : ∀ f, f ∈ m_fields Region → a_required f = true →
                  set_cells valid r !! a_name f ≠ None).
  { intros f Hf Hreq. simpl in Hf.
    repeat (apply elem_of_cons in Hf as [->|Hf]); simpl in *; try done.
    - by rewrite HNOC.
    - destruct (decide ("region" ∈ valid.*1)) as [Hin|Hout].
      + apply list_elem_of_fmap in Hin as ([name c] & Hname & Hin).
        simpl in Hname. subst name.
        rewrite (set_cells_lookup valid r "region" c Hnd Hin).
        apply (Hvals "region" c Hin). by right.
      + by rewrite set_cells_other.
    - by apply elem_of_nil in Hf. }
  unfold region_update, load, make_instance, region_schema.
  cbn [s_model]. rewrite Hv.
  rewrite filter_by_column; [|apply NOC_column]. rewrite bind_ret.
  unfold bind. simpl. rewrite Hm. simpl. unfold set_heap. simpl.
  destruct (setattr_loop valid
              {| o_model := Region; o_state := Persistent;
                 o_key := r !! "NOC"; o_dirty := false; o_attrs := r |}
              d 0) as [l Hl].
  rewrite Hl. clear Hl. simpl. unfold session_commit. simpl. rewrite Hk.
  destruct valid as [|kv valid'] eqn:Hvalid.
  - (* the empty payload: nothing to flush *)
    unfold flush_object. simpl. rewrite Hm. simpl.
    rewrite scalar_one_or_none_known by done. simpl.
    rewrite (put_row_same _ _ _ _ Hm). destruct d. by eexists.
  - rewrite <- Hvalid in *. 
    rewrite (flush_dirty_same_key Region); [|done|done|done].
    simpl. fold (put_row "NOC" (Some (SStr k)) (set_cells valid r) (regions d)).
    rewrite (matching_put_row _ _ _ _ r Hm HNOC). simpl.
    rewrite scalar_one_or_none_known by done. simpl.
    by eexists.
Qed.

(** X4: a PATCH of a stored region whose payload passes the partial
    validation and does not name the key is answered with 200 and the
    object of the updated row, after one commit.  The row takes the
    values of the payload for the fields it names and keeps every other
    field; it stays at its place in the table, and no other row nor the
    event table changes. *)
Theorem region_update_changes_named_fields event_attributes d k r body valid :
  matching "NOC" (Some (SStr k)) (regions d) = [r] →
  r !! "region" ≠ None →
  validate (m_fields Region) true body = inr valid →
  "NOC" ∉ valid.*1 →
  ∃ a l1 l2,
    handle event_attributes (PATCH_region k body) d
    = (Response 200 (dump_row Region a),
       {| regions := l1 ++ a :: l2; events := events d |}, 1)
    ∧ regions d = l1 ++ r :: l2
    ∧ (∀ name c, (name, c) ∈ valid → a !! name = c)
    ∧ (∀ name, name ∉ valid.*1 → a !! name = r !! name).
Proof.
  intros Hm Hregion Hv Hkey.
  destruct (region_update_run d k r body valid Hm Hregion Hv Hkey) as [h Hrun].
  destruct (put_row_split "NOC" (Some (SStr k)) (set_cells valid r)
              (regions d) r Hm) as (l1 & l2 & Ht & Hput & _).
  destruct (Region_partial_valid _ _ Hv) as [Hnd _].
  exists (set_cells valid r), l1, l2. split_and!.
  - rewrite (handle_Return event_attributes (PATCH_region k body) d _ _ _ Hrun).
    simpl. by rewrite Hput.
  - done.
  - intros name c Hin. by apply set_cells_lookup.
  - intros name Hout. by apply set_cells_other.
Qed.

Lemma region_update_changes_named_fields_witness :
  (matching "NOC" (Some (SStr "NEW")) (regions fixture_db) = [new_region]
   ∧ new_region !! "region" ≠ None
   ∧ validate (m_fields Region) true (JObj [("notes", JStr "updated")])
     = inr [("notes", Some (SStr "updated"))]
   ∧ "NOC" ∉ [("notes", Some (SStr "updated"))].*1)
  ∧ ∃ a l1 l2,
      handle fixture_attributes
        (PATCH_region "NEW" (JObj [("notes", JStr "updated")])) fixture_db
      = (Response 200 (dump_row Region a),
         {| regions := l1 ++ a :: l2; events := events fixture_db |}, 1)
      ∧ regions fixture_db = l1 ++ new_region :: l2
      ∧ (∀ name c, (name, c) ∈ [("notes", Some (SStr "updated"))] →
           a !! name = c)
      ∧ (∀ name, name ∉ [("notes", Some (SStr "updated"))].*1 →
           a !! name = new_region !! name).
Proof.
  assert (H1 : matching "NOC" (Some (SStr "NEW")) (regions fixture_db)
               = [new_region]) by reflexivity.
  assert (H2 : new_region !! "region" ≠ None) by (by vm_compute).
  assert (H3 : validate (m_fields Region) true (JObj [("notes", JStr "updated")])
               = inr [("notes", Some (SStr "updated"))]) by reflexivity.
  assert (H4 : "NOC" ∉ [("notes", Some (SStr "updated"))].*1).
  { apply (bool_decide_unpack _). by vm_compute. }
  split; [by split_and!|].
  exact (region_update_changes_named_fields fixture_attributes fixture_db
           "NEW" new_region (JObj [("notes", JStr "updated")])
           [("notes", Some (SStr "updated"))] H1 H2 H3 H4).
Defined.

(** X5: a PATCH of a region whose payload fails the partial validation is
    answered with 400 and the reasons per field.  [region_update] has no
    [except]: the answer is made by the handler registered for
    [ValidationError].  Nothing is stored, whether the key has a row or
    not. *)
Theorem region_update_invalid_payload event_attributes d k body errors :
  length (matching "NOC" (Some (SStr k)) (regions d)) ≤ 1 →
  validate (m_fields Region) true body = inl errors →
  handle event_attributes (PATCH_region k body) d
  = (Response 400 (jsonify_messages errors), d, 0).
Proof.
  intros Hlen Hv. unfold handle, full_dispatch_request. simpl.
  unfold region_update, load, region_schema. cbn [s_model]. rewrite Hv.
  rewrite filter_by_column; [|apply NOC_column]. rewrite bind_ret.
  unfold bind. simpl.
  destruct (matching "NOC" (Some (SStr k)) (regions d)) as [|r [|r' l]];
    simpl in *; [done|done|lia].
Qed.

Lemma region_update_invalid_payload_witness :
  (length (matching "NOC" (Some (SStr "NEW")) (regions fixture_db)) ≤ 1
   ∧ validate (m_fields Region) true (JObj [("region", JNull)])
     = inl [("region", ["Field may not be null."])])
  ∧ handle fixture_attributes
      (PATCH_region "NEW" (JObj [("region", JNull)])) fixture_db
    = (Response 400
         (jsonify_messages [("region", ["Field may not be null."])]),
       fixture_db, 0).
Proof.
  assert (H1 : length (matching "NOC" (Some (SStr "NEW")) (regions fixture_db))
               ≤ 1) by (vm_compute; lia).
  assert (H2 : validate (m_fields Region) true (JObj [("region", JNull)])
               = inl [("region", ["Field may not be null."])]) by reflexivity.
  split; [by split|].
  exact (region_update_invalid_payload fixture_attributes fixture_db "NEW"
           (JObj [("region", JNull)]) _ H1 H2).
Defined.

(** X6: with an Event model that has no attribute [event_id], every PATCH
    of an event ends in the 500 page, whatever the id and the payload:
    the select of [event_update] cannot be built.  Nothing is stored. *)
Theorem event_update_always_fails event_attributes d k body :
  "event_id" ∉ (a_name <$> event_attributes) →
  handle event_attributes (PATCH_event k body) d
  = (ErrorPage 500 InvalidRequestError, d, 0).
Proof.
  intros Hcol. apply event_update_unknown_column. simpl.
  apply not_elem_of_cons. by split.
Qed.

Lemma event_update_always_fails_witness :
  ("event_id" ∉ (a_name <$> fixture_attributes))
  ∧ handle fixture_attributes (PATCH_event 3 (JObj [("host", JStr "Tokyo")]))
      fixture_db
    = (ErrorPage 500 InvalidRequestError, fixture_db, 0).
Proof.
  assert (H1 : "event_id" ∉ (a_name <$> fixture_attributes)).
  { apply (bool_decide_unpack _). by vm_compute. }
  split; [exact H1|].
  exact (event_update_always_fails fixture_attributes fixture_db 3%Z
           (JObj [("host", JStr "Tokyo")]) H1).
Defined.

(** ** POST, exactly *)


(** POST of a region whose NOC has a row: that row is the merge target. *)
Lemma add_region_merge event_attributes d json_data valid k r l :
  validate (m_fields Region) false json_data = inr valid →
  assoc "NOC" valid = Some (Some (SStr k)) →
  matching "NOC" (Some (SStr k)) (regions d) = r :: l →
  handle event_attributes (POST_regions json_data) d
  = (Response 201 (message ("Region added with NOC= " ++ k)),
     {| regions := put_row "NOC" (Some (SStr k)) (set_cells valid r) (regions d);
        events := events d |}, 1).
Proof.
  intros Hv Hassoc Hm.
  destruct (Region_valid _ _ Hv) as (k' & rg & rest & Hvalid & Hrest).
  assert (k' = k) as -> by (subst valid; by injection Hassoc).
  assert (Hne : valid ≠ []) by by subst valid.
  assert (Hk : r !! "NOC" = Some (SStr k)).
  { apply (matching_key _ _ (regions d)). rewrite Hm. apply list_elem_of_here. }
  destruct (Region_valid_cells valid k rg rest r Hvalid Hrest) as [HNOC _].
  unfold handle, full_dispatch_request, view_function, add_region, try_except,
    load, make_instance, region_schema, bind.
  cbn [s_model]. rewrite Hv.
  rewrite (get_instance_first Region valid (SStr k) d r l Hassoc NOC_column Hm).
  destruct (setattr_loop_nonempty valid
              {| o_model := Region; o_state := Persistent;
                 o_key := r !! m_pk Region; o_dirty := false; o_attrs := r |}
              d 0 Hne) as [l' Hrun].
  rewrite Hrun. simpl. unfold session_commit. simpl. rewrite Hk.
  rewrite (flush_dirty_same_key Region); [|done|done|].
  - simpl. by rewrite HNOC.
  - intros f Hin Hf. by eapply valid_required_nonnull.
Qed.

Lemma Region_valid_NoDup json_data valid :
  validate (m_fields Region) false json_data = inr valid → NoDup valid.*1.
Proof.
  intros Hv. destruct (Region_valid _ _ Hv) as (k & rg & rest & -> & Hrest).
  destruct Hrest as [->|[c ->]]; by apply (bool_decide_unpack _); vm_compute.
Qed.

(** X7: a POST of a valid region payload whose NOC is already stored does
    not add a row and does not fail: [load] takes the stored row as its
    merge target, so the row is overwritten with the fields of the
    payload (a field the payload leaves out keeps its stored value), at
    its place in the table, and the answer is 201 as for a creation. *)
Theorem add_region_existing_key_overwrites event_attributes d json_data
    valid k r :
  validate (m_fields Region) false json_data = inr valid →
  assoc "NOC" valid = Some (Some (SStr k)) →
  matching "NOC" (Some (SStr k)) (regions d) = [r] →
  ∃ a l1 l2,
    handle event_attributes (POST_regions json_data) d
    = (Response 201 (message ("Region added with NOC= " ++ k)),
       {| regions := l1 ++ a :: l2; events := events d |}, 1)
    ∧ regions d = l1 ++ r :: l2
    ∧ (∀ name c, (name, c) ∈ valid → a !! name = c)
    ∧ (∀ name, name ∉ valid.*1 → a !! name = r !! name).
Proof.
  intros Hv Hassoc Hm.
  destruct (put_row_split "NOC" (Some (SStr k)) (set_cells valid r)
              (regions d) r Hm) as (l1 & l2 & Ht & Hput & _).
  exists (set_cells valid r), l1, l2. split_and!.
  - rewrite (add_region_merge event_attributes d json_data valid k r []
               Hv Hassoc Hm). by rewrite Hput.
  - done.
  - intros name c Hin. apply set_cells_lookup; [|done].
    by eapply Region_valid_NoDup.
  - intros name Hout. by apply set_cells_other.
Qed.

Lemma add_region_existing_key_overwrites_witness :
  (validate (m_fields Region) false
     (JObj [("NOC", JStr "NEW"); ("region", JStr "Renamed")])
   = inr [("NOC", Some (SStr "NEW")); ("region", Some (SStr "Renamed"))]
   ∧ assoc "NOC" [("NOC", Some (SStr "NEW")); ("region", Some (SStr "Renamed"))]
     = Some (Some (SStr "NEW"))
   ∧ matching "NOC" (Some (SStr "NEW")) (regions fixture_db) = [new_region])
  ∧ ∃ a l1 l2,
      handle fixture_attributes
        (POST_regions (JObj [("NOC", JStr "NEW"); ("region", JStr "Renamed")]))
        fixture_db
      = (Response 201 (message ("Region added with NOC= " ++ "NEW")),
         {| regions := l1 ++ a :: l2; events := events fixture_db |}, 1)
      ∧ regions fixture_db = l1 ++ new_region :: l2
      ∧ (∀ name c,
           (name, c) ∈ [("NOC", Some (SStr "NEW"));
                        ("region", Some (SStr "Renamed"))] → a !! name = c)
      ∧ (∀ name,
           name ∉ [("NOC", Some (SStr "NEW"));
                   ("region", Some (SStr "Renamed"))].*1 →
           a !! name = new_region !! name).
Proof.
  split; [by split_and!|].
  apply (add_region_existing_key_overwrites fixture_attributes fixture_db
           (JObj [("NOC", JStr "NEW"); ("region", JStr "Renamed")])
           [("NOC", Some (SStr "NEW")); ("region", Some (SStr "Renamed"))]
           "NEW" new_region); reflexivity.
Defined.



(** X9: an event created by POST is what GET of the id in the message
    returns afterwards: 200 and an object with that id and, for each
    attribute of the model, the value loaded from the payload ([null]
    for an attribute the payload leaves out). *)
Theorem post_then_get_event event_attributes d ev_json valid :
  "id" ∉ (a_name <$> event_attributes) →
  validate event_attributes false ev_json = inr valid →
  ∃ k d',
    handle event_attributes (POST_events ev_json) d
    = (Response 201 (message ("Event added with id= " ++ pretty k)), d', 1)
    ∧ handle event_attributes (GET_event k) d'
      = (Response 200
           (JObj (("id", JVal (SInt k))
                  :: ((λ a, (a_name a,
                             json_of_cell (set_cells valid ∅ !! a_name a)))
                        <$> event_attributes))), d', 0).
Proof.
  intros Hid Hv. exists (next_id "id" (events d)). eexists. split.
  - by apply add_event_valid.
  - set (k := next_id "id" (events d)).
    set (a := <["id" := SInt k]> (set_cells valid (∅ : row))).
    rewrite (get_event_found event_attributes _ k a).
    + assert (Hl : (λ c, (c, json_of_cell (a !! c))) <$> (a_name <$> event_attributes)
                   = (λ f, (a_name f,
                            json_of_cell (set_cells valid ∅ !! a_name f)))
                       <$> event_attributes).
      { rewrite <- list_fmap_compose. apply list_fmap_ext.
        intros i f Hf. simpl. unfold a. rewrite lookup_insert_ne; [done|].
        intros Heq. apply Hid. rewrite Heq.
        apply list_elem_of_fmap_2, (list_elem_of_lookup_2 _ i), Hf. }
      unfold dump_row. simpl. unfold a at 1. rewrite lookup_insert_eq. simpl.
      unfold field_names. simpl. rewrite <- Hl. reflexivity.
    + simpl. rewrite matching_app. unfold k. rewrite next_id_fresh. simpl.
      unfold matching. rewrite filter_cons, decide_True; [done|].
      apply lookup_insert_eq.
Qed.

Lemma post_then_get_event_witness :
  (("id" ∉ (a_name <$> fixture_attributes))
   ∧ validate fixture_attributes false scenario_event
     = inr [("type", Some (SStr "winter"))])
  ∧ ∃ k d',
      handle fixture_attributes (POST_events scenario_event) fixture_db
      = (Response 201 (message ("Event added with id= " ++ pretty k)), d', 1)
      ∧ handle fixture_attributes (GET_event k) d'
        = (Response 200
             (JObj (("id", JVal (SInt k))
                    :: ((λ a, (a_name a,
                               json_of_cell
                                 (set_cells [("type", Some (SStr "winter"))] ∅
                                    !! a_name a)))
                          <$> fixture_attributes))), d', 0).
Proof.
  assert (Hid : "id" ∉ (a_name <$> fixture_attributes)).
  { apply (bool_decide_unpack _). by vm_compute. }
  split; [by split|].
  apply (post_then_get_event fixture_attributes fixture_db scenario_event
           [("type", Some (SStr "winter"))] Hid). reflexivity.
Defined.

Lemma without_appended col v (t : list row) (a : row) :
  matching col v t = [] → a !! col = v → without col v (t ++ [a]) = t.
Proof.
  intros Hm Ha. unfold without. rewrite filter_app.
  rewrite (filter_others col v t (matching_nil col v t Hm)).
  rewrite filter_cons, decide_False by (by intros ?). simpl.
  apply app_nil_r.
Qed.



(** ** GET of a whole table *)

Lemma mapM_cons {A B} (f : A → M B) x l :
  mapM f (x :: l)
  = (let* y := f x in let* ys := mapM f l in ret (y :: ys)).
Proof. done. Qed.

(** Fetching rows with pairwise distinct keys, none of them held by the
    session yet: one new object per row, in the order of the rows. *)
Lemma scalars_distinct m (rows : list row) h d n :
  NoDup (keys (m_pk m) rows) →
  Forall (λ o, o_key o ∉ keys (m_pk m) rows) h →
  mapM (identify m) rows {| db := d; heap := h; commits := n |}
  = (Return (seq (length h) (length rows)),
     {| db := d; heap := h ++ (fetched m <$> rows); commits := n |}).
Proof.
  revert h. induction rows as [|r rows IH]; intros h Hnd Hh.
  - simpl. by rewrite app_nil_r.
  - unfold keys in Hnd. rewrite fmap_cons in Hnd.
    apply NoDup_cons in Hnd as [Hr Hnd]. fold (keys (m_pk m) rows) in Hr, Hnd.
    rewrite mapM_cons. unfold bind at 1.
    assert (Hfind : identify m r {| db := d; heap := h; commits := n |}
                    = (Return (length h),
                       {| db := d; heap := h ++ [fetched m r]; commits := n |})).
    { unfold identify. simpl.
      destruct (list_find _ h) as [[i o]|] eqn:Hf; [|done].
      apply list_find_Some in Hf as (Hi & (_ & _ & Hkey) & _).
      apply list_elem_of_lookup_2 in Hi.
      rewrite Forall_forall in Hh. destruct (Hh o Hi).
      rewrite Hkey. unfold keys. rewrite fmap_cons. apply list_elem_of_here. }
    rewrite Hfind. unfold bind at 1. rewrite IH; [|done|].
    + simpl. rewrite length_app. simpl.
      rewrite <- app_assoc. simpl.
      replace (length h + 1) with (S (length h)) by lia. done.
    + apply Forall_app. split.
      * eapply Forall_impl; [exact Hh|]. intros o Ho Hin. apply Ho.
        unfold keys. rewrite fmap_cons. by apply list_elem_of_further.
      * by repeat constructor.
Qed.

Lemma dump_one_known m i o s :
  heap s !! i = Some o →
  dump_one m (Some i) s = (Return (dump_row m (o_attrs o)), s).
Proof. intros Hi. unfold dump_one, bind, deref. by rewrite Hi. Qed.

(** Dumping references that point at the objects of the given rows. *)
Lemma dump_fetched m (refs : list ref) (rows : list row) s :
  Forall2 (λ i r, ∃ o, heap s !! i = Some o ∧ o_attrs o = r) refs rows →
  mapM (λ i, dump_one m (Some i)) refs s = (Return (dump_row m <$> rows), s).
Proof.
  induction 1 as [|i r refs rows (o & Hi & Ho) Hrest IH]; [done|].
  rewrite mapM_cons. unfold bind at 1. rewrite (dump_one_known m i o s Hi).
  unfold bind at 1. rewrite IH. by rewrite Ho.
Qed.

Lemma get_all_run sch (d : database) :
  s_many sch = true →
  NoDup (keys (m_pk (s_model sch)) (table (m_entity (s_model sch)) d)) →
  (let* res := execute (select (s_model sch)) in
   let* all := scalars res in
   let* result := dump sch (Many all) in
   ret (result, 200)) (new_session d)
  = (Return (JArr (dump_row (s_model sch)
                     <$> table (m_entity (s_model sch)) d), 200),
     {| db := d;
        heap := fetched (s_model sch) <$> table (m_entity (s_model sch)) d;
        commits := 0 |}).
Proof.
  intros Hmany Hnd. unfold bind at 1. simpl.
  unfold bind at 1, scalars, new_session. simpl.
  rewrite (scalars_distinct (s_model sch) _ [] d 0 Hnd); [|constructor].
  simpl. unfold bind at 1, dump. rewrite Hmany.
  unfold bind at 1. rewrite (dump_fetched _ _ (table (m_entity (s_model sch)) d)).
  - done.
  - simpl. apply Forall2_same_length_lookup_2.
    + by rewrite length_seq.
    + intros i x r Hx Hr. apply lookup_seq in Hx as [-> _].
      exists (fetched (s_model sch) r). split; [|done].
      simpl. rewrite list_lookup_fmap. by rewrite Hr.
Qed.

(** X3: GET of a whole table, its keys being pairwise distinct, is
    answered with 200 and an array that holds the object of every stored
    row, each once, and nothing else; the store is as it was and nothing
    is committed.  Nothing is said on the order of the array. *)
Theorem get_list_answer event_attributes d :
  (NoDup (keys "NOC" (regions d)) →
   ∃ items, handle event_attributes GET_regions d
            = (Response 200 (JArr items), d, 0)
     ∧ items ≡ₚ dump_row Region <$> regions d)
  ∧ (NoDup (keys "id" (events d)) →
     ∃ items, handle event_attributes GET_events d
              = (Response 200 (JArr items), d, 0)
       ∧ items ≡ₚ dump_row (Event event_attributes) <$> events d).
Proof.
  split; intros Hnd; eexists; (split; [|reflexivity]).
  - rewrite (handle_Return event_attributes GET_regions d _ _ _
               (get_all_run regions_schema d eq_refl Hnd)). done.
  - rewrite (handle_Return event_attributes GET_events d _ _ _
               (get_all_run (events_schema event_attributes) d eq_refl Hnd)).
    done.
Qed.

Lemma get_list_answer_witness :
  (NoDup (keys "NOC" (regions filled_db))
   ∧ ∃ items, handle fixture_attributes GET_regions filled_db
              = (Response 200 (JArr items), filled_db, 0)
       ∧ items ≡ₚ dump_row Region <$> [new_region; another_region])
  ∧ (NoDup (keys "id" (events filled_db))
     ∧ ∃ items, handle fixture_attributes GET_events filled_db
                = (Response 200 (JArr items), filled_db, 0)
         ∧ items ≡ₚ dump_row (Event fixture_attributes)
                      <$> [later_event; an_event]).
Proof.
  assert (H1 : NoDup (keys "NOC" (regions filled_db))).
  { apply (bool_decide_unpack _). by vm_compute. }
  assert (H2 : NoDup (keys "id" (events filled_db))).
  { apply (bool_decide_unpack _). by vm_compute. }
  split; (split; [done|]).
  - exact (proj1 (get_list_answer fixture_attributes filled_db) H1).
  - exact (proj2 (get_list_answer fixture_attributes filled_db) H2).
Defined.

(** ** Invariants of the store *)

(** What the flush of one object does to the store: nothing, an INSERT of
    a row that meets the constraints under a key that is free, an UPDATE
    of the rows with the object's key by a row that meets the
    constraints, its key being the same or free, or a DELETE of the rows
    with the object's key.  Only the table of the object's model is
    concerned, and the object keeps its model. *)
Lemma flush_object_cases o d o' d' :
  flush_object o d = Some (o', d') →
  let m := o_model o in
  let t := table (m_entity m) d in
  o_model o' = m
  ∧ ∃ t', d' = set_table (m_entity m) t' d
     ∧ (t' = t
        ∨ (∃ a, t' = t ++ [a] ∧ not_null_ok m a = true
                ∧ matching (m_pk m) (a !! m_pk m) t = [])
        ∨ (∃ a, t' = put_row (m_pk m) (o_key o) a t ∧ not_null_ok m a = true
                ∧ (a !! m_pk m = o_key o
                   ∨ matching (m_pk m) (a !! m_pk m) t = []))
        ∨ t' = without (m_pk m) (o_key o) t).
Proof.
  intros Hf m t. unfold flush_object in Hf. fold m t in Hf.
  assert (Hsame : set_table (m_entity m) t d = d).
  { unfold t. by destruct d, (m_entity m). }
  destruct (o_state o).
  - injection Hf as <- <-. split; [done|]. exists t. by split; [|left].
  - destruct (not_null_ok m _) eqn:Hnn; [|done].
    destruct (key_free m _ t) eqn:Hfree; [|done].
    simpl in Hf. injection Hf as <- <-. split; [done|].
    eexists. split; [done|]. right. left. eexists. split_and!; [done|done|].
    unfold key_free in Hfree. by apply bool_decide_eq_true in Hfree.
  - destruct (o_dirty o).
    + destruct (not_null_ok m _) eqn:Hnn; [|done]. simpl in Hf.
      destruct (bool_decide (o_attrs o !! m_pk m = o_key o) || _) eqn:Hkey;
        [|done].
      injection Hf as <- <-. split; [done|].
      eexists. split; [done|]. right. right. left.
      exists (o_attrs o). split_and!; [done|done|].
      apply orb_true_iff in Hkey as [Hkey|Hkey].
      * left. by apply bool_decide_eq_true in Hkey.
      * right. unfold key_free in Hkey. by apply bool_decide_eq_true in Hkey.
    + injection Hf as <- <-. split; [done|]. exists t. by split; [|left].
  - injection Hf as <- <-. split; [done|].
    eexists. split; [done|]. by right; right; right.
  - injection Hf as <- <-. split; [done|]. exists t. by split; [|left].
Qed.

Section Invariant.

Variable G : model → Prop.
Variable D : database → Prop.

(** The flush of an object of a model in [G] keeps [D]. *)
Hypothesis flush_object_D :
  ∀ o d o' d', G (o_model o) → D d → flush_object o d = Some (o', d') → D d'.

Abbreviation I := (inv G D).

Lemma keeps_ret {A} (Q : A → Prop) (a : A) : Q a → keeps I Q (ret a).
Proof. intros Ha s Hs. split; [done|]. by intros a' [= <-]. Qed.

Lemma keeps_raise {A} (Q : A → Prop) (e : exn) : keeps I Q (@raise A e).
Proof. intros s Hs. by split. Qed.

Lemma keeps_bind {A B} (P : A → Prop) (Q : B → Prop) (m : M A) (k : A → M B) :
  keeps I P m → (∀ a, P a → keeps I Q (k a)) → keeps I Q (bind m k).
Proof.
  intros Hm Hk s Hs. unfold bind. destruct (Hm s Hs) as [Hs' Hp].
  destruct (m s) as [[a|e] s']; simpl in *; [|by split].
  apply (Hk a); [by apply Hp|done].
Qed.

Lemma keeps_weaken {A} (P Q : A → Prop) (m : M A) :
  keeps I P m → (∀ a, P a → Q a) → keeps I Q m.
Proof.
  intros Hm HPQ s Hs. destruct (Hm s Hs) as [Hs' Hp]. split; [done|].
  intros a Ha. by apply HPQ, Hp.
Qed.

Lemma keeps_try_except {A} (Q : A → Prop) (body : M A) handler :
  keeps I Q body → (∀ e h, handler e = Some h → keeps I Q h) →
  keeps I Q (try_except body handler).
Proof.
  intros Hb Hh s Hs. unfold try_except. destruct (Hb s Hs) as [Hs' Hq].
  destruct (body s) as [[a|e] s']; simpl in *; [by split|].
  destruct (handler e) as [h|] eqn:He; [|by split].
  by apply (Hh e h He).
Qed.

Lemma keeps_mapM {A B} (f : A → M B) (l : list A) :
  (∀ a, keeps I (λ _, True) (f a)) → keeps I (λ _, True) (mapM f l).
Proof.
  intros Hf. induction l as [|x l IH]; [by apply keeps_ret|].
  rewrite mapM_cons. eapply keeps_bind; [apply Hf|]. intros y _.
  eapply keeps_bind; [apply IH|]. intros ys _. by apply keeps_ret.
Qed.

Lemma keeps_alloc o : G (o_model o) → keeps I (λ _, True) (alloc o).
Proof.
  intros Ho s [Hd Hh]. split; [|done]. split; [done|]. simpl.
  apply Forall_app. split; [done|]. by constructor.
Qed.

Lemma keeps_deref r : keeps I (λ _, True) (deref r).
Proof. intros s Hs. unfold deref. by destruct (heap s !! r). Qed.

Lemma keeps_update r f :
  (∀ o, o_model (f o) = o_model o) → keeps I (λ _, True) (update r f).
Proof.
  intros Hf s [Hd Hh]. unfold update.
  destruct (heap s !! r) as [o|] eqn:Hr; [|by split]. simpl.
  split; [|done]. split; [done|]. simpl. apply Forall_insert; [done|].
  rewrite Hf. rewrite Forall_forall in Hh.
  by apply Hh, (list_elem_of_lookup_2 _ r).
Qed.

Lemma keeps_getattr r name : keeps I (λ _, True) (getattr r name).
Proof.
  destruct r as [r|]; simpl; [|apply keeps_raise].
  eapply keeps_bind; [apply keeps_deref|]. intros o _. by apply keeps_ret.
Qed.

Lemma keeps_setattr r name c : keeps I (λ _, True) (setattr r name c).
Proof. by apply keeps_update. Qed.

Lemma keeps_session_add r : keeps I (λ _, True) (session_add r).
Proof. apply keeps_update. intros o. by destruct (o_state o). Qed.

Lemma keeps_session_delete r : keeps I (λ _, True) (session_delete r).
Proof.
  eapply keeps_bind; [apply keeps_deref|]. intros o _.
  destruct (o_state o); try apply keeps_raise. by apply keeps_update.
Qed.

Lemma keeps_filter_by col v st :
  G (stmt_model st) →
  keeps I (λ st', G (stmt_model st')) (filter_by col v st).
Proof.
  intros Hst. destruct st; simpl in *; case_decide;
    (by apply keeps_ret) || apply keeps_raise.
Qed.

Lemma keeps_execute st :
  G (stmt_model st) → keeps I (λ res, G res.1) (execute st).
Proof.
  intros Hst s Hs. destruct st; simpl in *; (split; [done|]);
    by intros a [= <-].
Qed.

Lemma keeps_identify m r : G m → keeps I (λ _, True) (identify m r).
Proof.
  intros Hm s Hs. unfold identify.
  destruct (list_find _ _) as [[i o]|]; [by split|].
  refine (keeps_alloc _ _ s Hs). exact Hm.
Qed.

Lemma keeps_scalars res : G res.1 → keeps I (λ _, True) (scalars res).
Proof. intros Hm. apply keeps_mapM. intros r. by apply keeps_identify. Qed.

Lemma keeps_scalar_one res : G res.1 → keeps I (λ _, True) (scalar_one res).
Proof.
  intros Hm. unfold scalar_one. destruct res.2 as [|r [|r' t]];
    try apply keeps_raise. by apply keeps_identify.
Qed.

Lemma keeps_scalar_one_or_none res :
  G res.1 → keeps I (λ _, True) (scalar_one_or_none res).
Proof.
  intros Hm. unfold scalar_one_or_none. destruct res.2 as [|r [|r' t]];
    [by apply keeps_ret| |apply keeps_raise].
  eapply keeps_bind; [by apply keeps_identify|]. intros x _. by apply keeps_ret.
Qed.

Lemma keeps_first res : G res.1 → keeps I (λ _, True) (first res).
Proof.
  intros Hm. unfold first. destruct res.2 as [|r t]; [by apply keeps_ret|].
  eapply keeps_bind; [by apply keeps_identify|]. intros x _. by apply keeps_ret.
Qed.

Lemma flush_keeps os d os' d' :
  Forall (λ o, G (o_model o)) os → D d → flush os d = Some (os', d') →
  D d' ∧ Forall (λ o, G (o_model o)) os'.
Proof using flush_object_D.
  revert d os' d'. induction os as [|o os IH]; intros d os' d' Hos Hd Hf.
  - injection Hf as <- <-. by split.
  - apply Forall_cons in Hos as [Ho Hos]. simpl in Hf.
    destruct (flush_object o d) as [[o1 d1]|] eqn:Ho1; [|done].
    destruct (flush os d1) as [[os2 d2]|] eqn:Hos2; [|done].
    injection Hf as <- <-.
    destruct (IH d1 os2 d2 Hos (flush_object_D _ _ _ _ Ho Hd Ho1) Hos2)
      as [Hd2 Hos2'].
    split; [done|]. constructor; [|done].
    destruct (flush_object_cases _ _ _ _ Ho1) as [-> _]. done.
Qed.

Lemma keeps_session_commit : keeps I (λ _, True) session_commit.
Proof using flush_object_D.
  intros s [Hd Hh]. unfold session_commit.
  destruct (flush (heap s) (db s)) as [[h d]|] eqn:Hf; [|by split].
  simpl. split; [|done]. by apply (flush_keeps _ _ _ _ Hh Hd Hf).
Qed.

Lemma keeps_get_instance m valid :
  G m → keeps I (λ _, True) (get_instance m valid).
Proof.
  intros Hm. unfold get_instance.
  destruct (assoc _ _) as [[k|]|]; try by apply keeps_ret.
  eapply keeps_bind; [by apply keeps_filter_by|]. intros st Hst.
  eapply keeps_bind; [by apply keeps_execute|]. intros res Hres.
  by apply keeps_first.
Qed.

Lemma keeps_load sch data instance partial :
  G (s_model sch) → keeps I (λ _, True) (load sch data instance partial).
Proof.
  intros Hm. unfold load. destruct (validate _ _ _); [apply keeps_raise|].
  unfold make_instance. eapply (keeps_bind (λ _, True)).
  - destruct instance; [by apply keeps_ret|by apply keeps_get_instance].
  - intros [r|] _; [|by apply keeps_alloc].
    eapply keeps_bind; [|intros ? _; by apply keeps_ret].
    apply keeps_mapM. intros kv. apply keeps_setattr.
Qed.

Lemma keeps_dump sch t : keeps I (λ _, True) (dump sch t).
Proof.
  assert (Hone : ∀ m r, keeps I (λ _, True) (dump_one m r)).
  { intros m [r|]; simpl; [|by apply keeps_ret].
    eapply keeps_bind; [apply keeps_deref|]. intros o _. by apply keeps_ret. }
  unfold dump. destruct (s_many sch), t; try apply keeps_raise; [|apply Hone].
  eapply keeps_bind; [|intros ? _; by apply keeps_ret].
  apply keeps_mapM. intros r. apply Hone.
Qed.

Lemma keeps_handle_validation_error e :
  keeps I (λ _, True) (handle_validation_error e).
Proof. destruct e; simpl; try apply keeps_raise. by apply keeps_ret. Qed.

(** One step of a view: a primitive with its premise, then the rest. *)
Ltac keeps_step :=
  first
    [ by apply keeps_ret
    | apply keeps_raise
    | eapply keeps_bind;
      [ first [ by apply keeps_filter_by | by apply keeps_execute
              | by apply keeps_scalars | by apply keeps_scalar_one
              | by apply keeps_scalar_one_or_none | by apply keeps_load
              | apply keeps_dump | apply keeps_session_add
              | apply keeps_session_delete | apply keeps_session_commit
              | apply keeps_getattr ]
      | intros ? ? ] ].

Variable event_attributes : list attribute.

Lemma region_views_keep req :
  resource req = region_table → G Region →
  keeps I (λ _, True) (view_function event_attributes req).
Proof using flush_object_D.
  intros Hreq HG. destruct req; try done; simpl.
  - unfold get_regions. repeat keeps_step.
  - unfold get_region. apply keeps_try_except; [repeat keeps_step|].
    intros e h He. destruct e; try done. injection He as <-.
    apply keeps_raise.
  - unfold add_region. apply keeps_try_except; [repeat keeps_step|].
    intros e h He. destruct e; try done. injection He as <-.
    apply (keeps_handle_validation_error (ValidationError errors)).
  - unfold region_update. repeat keeps_step.
  - unfold delete_region. repeat keeps_step.
Qed.

Lemma event_views_keep req :
  resource req = event_table → G (Event event_attributes) →
  keeps I (λ _, True) (view_function event_attributes req).
Proof using flush_object_D.
  intros Hreq HG. destruct req; try done; simpl.
  - unfold get_events. repeat keeps_step.
  - unfold get_event. repeat keeps_step.
  - unfold add_event. apply keeps_try_except; [repeat keeps_step|].
    intros e h He. destruct e; try done. injection He as <-.
    apply (keeps_handle_validation_error (ValidationError errors)).
  - unfold event_update. repeat keeps_step.
  - unfold delete_event. repeat keeps_step.
Qed.

Lemma dispatch_keeps view s :
  keeps I (λ _, True) view → I s → I (full_dispatch_request view s).2.
Proof.
  intros Hv Hs. unfold full_dispatch_request. destruct (Hv s Hs) as [Hs' _].
  destruct (view s) as [[[body st]|e] s']; simpl in *; [done|].
  destruct e; simpl; try done. by case_decide.
Qed.

(** A property of the store that the flush keeps for the model of the
    request is kept by the request. *)
Lemma handle_keeps req d :
  G (if decide (resource req = region_table) then Region
     else Event event_attributes) →
  D d → D (stored_after (handle event_attributes req d)).
Proof using flush_object_D.
  intros HG Hd. rewrite handle_eq. unfold stored_after. simpl.
  apply dispatch_keeps; [|by split; [|constructor]].
  destruct (resource req) eqn:Hres; simpl in HG.
  - by apply region_views_keep.
  - by apply event_views_keep.
Qed.

End Invariant.

(** *** The other table *)

(** X13: a request on regions never changes the event table, and a
    request on events never changes the region table, whatever the
    request and its outcome. *)
Theorem requests_leave_other_table event_attributes req d :
  match resource req with
  | region_table =>
      events (stored_after (handle event_attributes req d)) = events d
  | event_table =>
      regions (stored_after (handle event_attributes req d)) = regions d
  end.
Proof.
  destruct (resource req) eqn:Hres.
  - apply (handle_keeps (λ m, m_entity m = region_table)
             (λ d', events d' = events d)); [| |done].
    + intros o d1 o' d' Hm Hd Hf.
      destruct (flush_object_cases _ _ _ _ Hf) as [_ (t' & -> & _)].
      by rewrite Hm.
    + by rewrite Hres.
  - apply (handle_keeps (λ m, m_entity m = event_table)
             (λ d', regions d' = regions d)); [| |done].
    + intros o d1 o' d' Hm Hd Hf.
      destruct (flush_object_cases _ _ _ _ Hf) as [_ (t' & -> & _)].
      by rewrite Hm.
    + by rewrite Hres.
Qed.

(** ** The statuses of the routes *)

Lemma raises_ret {A} E (a : A) : raises E (ret a).
Proof. by intros s e. Qed.

Lemma raises_raise {A} (E : exn → Prop) e : E e → raises E (@raise A e).
Proof. intros He s e' [= <-]. done. Qed.

Lemma raises_bind {A B} E (m : M A) (k : A → M B) :
  raises E m → (∀ a, raises E (k a)) → raises E (bind m k).
Proof.
  intros Hm Hk s e. unfold bind. specialize (Hm s).
  destruct (m s) as [[a|e'] s']; simpl in *; [apply Hk|].
  intros [= <-]. by apply Hm.
Qed.

Lemma raises_weaken {A} (E E' : exn → Prop) (m : M A) :
  (∀ e, E e → E' e) → raises E m → raises E' m.
Proof. intros HE Hm s e He. by apply HE, (Hm s). Qed.

Lemma raises_try_except {A} (E E' : exn → Prop) (body : M A) handler :
  raises E body →
  (∀ e h, handler e = Some h → raises E' h) →
  (∀ e, E e → handler e = None → E' e) →
  raises E' (try_except body handler).
Proof.
  intros Hb Hh Hnone s e. unfold try_except. specialize (Hb s).
  destruct (body s) as [[a|e'] s']; simpl in *; [done|].
  destruct (handler e') as [h|] eqn:He'.
  - by apply (Hh e' h).
  - intros [= <-]. by apply Hnone; [apply Hb|].
Qed.

Lemma raises_mapM {A B} E (f : A → M B) (l : list A) :
  (∀ a, raises E (f a)) → raises E (mapM f l).
Proof.
  intros Hf. induction l as [|x l IH]; [apply raises_ret|].
  rewrite mapM_cons. apply raises_bind; [apply Hf|]. intros y.
  apply raises_bind; [apply IH|]. intros ys. apply raises_ret.
Qed.

(** Closes the goal for a primitive written with [match]. *)
Ltac raises_cases :=
  intros ? ?; simpl; repeat case_match; simpl; intros [= <-]; done.

Lemma raises_alloc o : raises internal (alloc o).
Proof. raises_cases. Qed.

Lemma raises_deref r : raises internal (deref r).
Proof. unfold deref. raises_cases. Qed.

Lemma raises_update r f : raises internal (update r f).
Proof. unfold update. raises_cases. Qed.

Lemma raises_filter_by col v st : raises internal (filter_by col v st).
Proof. unfold filter_by, ret, raise. raises_cases. Qed.

Lemma raises_execute st : raises internal (execute st).
Proof. unfold execute. raises_cases. Qed.

Lemma raises_identify m r : raises internal (identify m r).
Proof. unfold identify, alloc. raises_cases. Qed.

Lemma raises_session_commit : raises internal session_commit.
Proof. unfold session_commit. raises_cases. Qed.

Create HintDb raises.

#[local] Hint Resolve raises_ret raises_alloc raises_deref raises_update
  raises_filter_by raises_execute raises_identify raises_session_commit
  : raises.

Ltac raises_steps :=
  repeat first
    [ progress eauto 2 with raises
    | by apply raises_raise
    | apply raises_bind; [|intros ?]
    | apply raises_mapM; intros ? ].

Lemma raises_scalars res : raises internal (scalars res).
Proof. unfold scalars. raises_steps. Qed.

Lemma raises_scalar_one res : raises internal (scalar_one res).
Proof. unfold scalar_one. destruct res.2 as [|r [|r' t]]; raises_steps. Qed.

Lemma raises_scalar_one_or_none res : raises internal (scalar_one_or_none res).
Proof.
  unfold scalar_one_or_none. destruct res.2 as [|r [|r' t]]; raises_steps.
Qed.

Lemma raises_first res : raises internal (first res).
Proof. unfold first. destruct res.2 as [|r t]; raises_steps. Qed.

Lemma raises_session_add r : raises internal (session_add r).
Proof. apply raises_update. Qed.

Lemma raises_setattr r name c : raises internal (setattr r name c).
Proof. apply raises_update. Qed.

Lemma raises_session_delete r : raises internal (session_delete r).
Proof.
  unfold session_delete. apply raises_bind; [apply raises_deref|].
  intros o. destruct (o_state o); raises_steps.
Qed.

Lemma raises_getattr r name : raises internal (getattr r name).
Proof. destruct r; simpl; raises_steps. Qed.

Lemma raises_dump sch t : raises internal (dump sch t).
Proof.
  unfold dump, dump_one.
  destruct (s_many sch), t as [[r|]|rs]; raises_steps.
Qed.

#[local] Hint Resolve raises_scalars raises_scalar_one
  raises_scalar_one_or_none raises_first raises_session_add raises_setattr
  raises_session_delete raises_getattr raises_dump : raises.

(** [load] raises [ValidationError], or what the session raises. *)
Lemma raises_load sch data instance partial :
  raises invalid_or_internal (load sch data instance partial).
Proof.
  unfold load. destruct (validate _ _ _); [by apply raises_raise|].
  apply (raises_weaken internal); [by intros []|].
  unfold make_instance. apply raises_bind.
  - destruct instance; [apply raises_ret|].
    unfold get_instance. destruct (assoc _ _) as [[k|]|]; raises_steps.
  - intros [r|]; raises_steps.
Qed.

Lemma internal_invalid e : internal e → invalid_or_internal e.
Proof. by destruct e. Qed.

(** A step of a view that may also raise [ValidationError]. *)
Ltac raises_invalid_steps :=
  repeat first
    [ apply raises_ret
    | apply raises_load
    | apply (raises_weaken internal _ _ internal_invalid);
      progress eauto 2 with raises
    | apply raises_bind; [|intros ?] ].

Lemma answers_try_except {A} (P : A → Prop) (body : M A) handler :
  answers P body → (∀ e h, handler e = Some h → answers P h) →
  answers P (try_except body handler).
Proof.
  intros Hb Hh s a. unfold try_except. specialize (Hb s).
  destruct (body s) as [[a'|e] s']; simpl in *; [by apply Hb|].
  destruct (handler e) as [h|] eqn:He; [by apply (Hh e h)|done].
Qed.

(** Each view answers with the status of its [return]. *)
Ltac in_list := repeat first [apply list_elem_of_here | apply list_elem_of_further].

Ltac answers_steps :=
  repeat (apply answers_bind; intros ?); apply answers_ret; simpl; in_list.

Section RouteStatuses.

Variable event_attributes : list attribute.

Lemma view_answers req :
  answers (λ r : response, r.2 ∈ statuses req)
    (view_function event_attributes req).
Proof.
  destruct req; simpl.
  - unfold get_regions. answers_steps.
  - unfold get_region. apply answers_try_except; [answers_steps|].
    intros e h He. destruct e; try done. injection He as <-. by intros s a.
  - unfold add_region. apply answers_try_except; [answers_steps|].
    intros e h He. destruct e; try done. injection He as <-.
    intros s a [= <-]. simpl. in_list.
  - unfold region_update. answers_steps.
  - unfold delete_region. answers_steps.
  - unfold get_events. answers_steps.
  - unfold get_event. answers_steps.
  - unfold add_event. apply answers_try_except; [answers_steps|].
    intros e h He. destruct e; try done. injection He as <-.
    intros s a [= <-]. simpl. in_list.
  - unfold event_update. answers_steps.
  - unfold delete_event. answers_steps.
Qed.

Lemma view_raises req :
  raises (λ e, error_status e ∈ statuses req)
    (view_function event_attributes req).
Proof.
  assert (H500 : ∀ req' e, internal e → error_status e ∈ statuses req').
  { intros req' e He. destruct e; try done; destruct req'; simpl;
      repeat first [apply list_elem_of_here | apply list_elem_of_further]. }
  assert (H400 : ∀ req' e, In 400 (statuses req') → invalid_or_internal e →
                   error_status e ∈ statuses req').
  { intros req' e H4 He. destruct e; try done; try (by apply H500).
    simpl. by apply list_elem_of_In. }
  destruct req; simpl view_function.
  - apply (raises_weaken internal); [apply H500|].
    unfold get_regions. raises_steps.
  - unfold get_region.
    apply (raises_try_except internal).
    + raises_steps.
    + intros e h He. destruct e; try done. injection He as <-.
      intros s e [= <-]. simpl. in_list.
    + intros e He _. by apply H500.
  - unfold add_region. apply (raises_try_except invalid_or_internal).
    + raises_invalid_steps.
    + intros e h He. destruct e; try done. injection He as <-. by intros s e.
    + intros e He Hnone. destruct e; try done; by apply H500.
  - apply (raises_weaken invalid_or_internal).
    { intros e. apply H400. simpl. tauto. }
    unfold region_update. raises_invalid_steps.
  - apply (raises_weaken internal); [apply H500|].
    unfold delete_region. raises_steps.
  - apply (raises_weaken internal); [apply H500|].
    unfold get_events. raises_steps.
  - apply (raises_weaken internal); [apply H500|].
    unfold get_event. raises_steps.
  - unfold add_event. apply (raises_try_except invalid_or_internal).
    + raises_invalid_steps.
    + intros e h He. destruct e; try done. injection He as <-. by intros s e.
    + intros e He Hnone. destruct e; try done; by apply H500.
  - apply (raises_weaken invalid_or_internal).
    { intros e. apply H400. simpl. tauto. }
    unfold event_update. raises_invalid_steps.
  - apply (raises_weaken internal); [apply H500|].
    unfold delete_event. raises_steps.
Qed.

(** The status of the reply: that of the returned response, or the one
    Flask gives to the exception. *)
Lemma dispatch_status view s :
  status_of (full_dispatch_request view s).1
  = match (view s).1 with
    | Return r => r.2
    | Raise e => error_status e
    end.
Proof.
  unfold full_dispatch_request.
  destruct (view s) as [[[body st]|e] s']; simpl; [done|].
  destruct e; simpl; try done. by case_decide.
Qed.

Lemma handle_status req d :
  status_of (reply_of (handle event_attributes req d)) ∈ statuses req.
Proof.
  rewrite handle_eq. unfold reply_of. simpl. rewrite dispatch_status.
  destruct (view_function event_attributes req (new_session d)).1
    as [r|e] eqn:Hrun.
  - by apply (view_answers req (new_session d)).
  - by apply (view_raises req (new_session d)).
Qed.

End RouteStatuses.

(** X15: the statuses of the routes, for the requests whose body, where
    the view reads one, is JSON (what [request.get_json()] returns).  A GET
    of a table or of an event and a DELETE answer 200 or 500, a GET of a
    region 200, 404 or 500, a POST 201, 400 or 500, a PATCH 200, 400 or
    500; such a request is answered with no other status. *)
Theorem route_statuses event_attributes req d :
  status_of (reply_of (handle event_attributes req d)) ∈ statuses req.
Proof.
  rewrite handle_eq. unfold reply_of. simpl. rewrite dispatch_status.
  destruct (view_function event_attributes req (new_session d)).1
    as [r|e] eqn:Hrun.
  - by apply (view_answers event_attributes req (new_session d)).
  - by apply (view_raises event_attributes req (new_session d)).
Qed.

(** X14: 404 is answered for one reason only.  A reply has status 404
    only when the request is a GET of a region whose NOC has no row, and
    then its body is the error object of [resource_not_found]; no GET of
    an event, no POST, PATCH or DELETE is ever answered with 404. *)
Theorem not_found_only_for_missing_region event_attributes req d :
  status_of (reply_of (handle event_attributes req d)) = 404 →
  ∃ code,
    req = GET_region code
    ∧ matching "NOC" (Some (SStr code)) (regions d) = []
    ∧ reply_of (handle event_attributes req d)
      = Response 404 (JObj [("error", JStr "404 Not Found: Region not found.")]).
Proof.
  intros H404. pose proof (handle_status event_attributes req d) as Hst.
  rewrite H404 in Hst. apply list_elem_of_In in Hst.
  destruct req; simpl in Hst; try (by intuition discriminate).
  exists code. split; [done|].
  destruct (matching "NOC" (Some (SStr code)) (regions d))
    as [|r [|r' l]] eqn:Hm.
  - split; [done|]. by rewrite (get_region_absent event_attributes d code Hm).
  - rewrite (get_region_found event_attributes d code r Hm) in H404. done.
  - exfalso. revert H404. unfold handle, full_dispatch_request. simpl.
    unfold get_region, try_except.
    rewrite filter_by_column; [|apply NOC_column]. rewrite bind_ret.
    unfold bind at 1. simpl. rewrite Hm. done.
Qed.

Lemma not_found_only_for_missing_region_witness :
  status_of (reply_of (handle fixture_attributes (GET_region "ZZZ") fixture_db))
  = 404
  ∧ ∃ code,
      GET_region "ZZZ" = GET_region code
      ∧ matching "NOC" (Some (SStr code)) (regions fixture_db) = []
      ∧ reply_of (handle fixture_attributes (GET_region "ZZZ") fixture_db)
        = Response 404
            (JObj [("error", JStr "404 Not Found: Region not found.")]).
Proof.
  assert (H : status_of (reply_of (handle fixture_attributes (GET_region "ZZZ")
                                     fixture_db)) = 404) by reflexivity.
  split; [exact H|].
  exact (not_found_only_for_missing_region fixture_attributes
           (GET_region "ZZZ") fixture_db H).
Defined.

(** ** Requests one after the other *)

(** The reply of [get_region] is a function of the rows with the code. *)
Lemma get_region_reply event_attributes d code :
  reply_of (handle event_attributes (GET_region code) d)
  = match matching "NOC" (Some (SStr code)) (regions d) with
    | [] => Response 404
              (JObj [("error", JStr "404 Not Found: Region not found.")])
    | [r] => Response 200 (dump_row Region r)
    | _ => ErrorPage 500 MultipleResultsFound
    end.
Proof.
  destruct (matching "NOC" (Some (SStr code)) (regions d))
    as [|r [|r' l]] eqn:Hm.
  - by rewrite (get_region_absent event_attributes d code Hm).
  - by rewrite (get_region_found event_attributes d code r Hm).
  - unfold handle, full_dispatch_request. simpl.
    unfold get_region, try_except.
    rewrite filter_by_column; [|apply NOC_column]. rewrite bind_ret.
    unfold bind at 1. simpl. rewrite Hm. done.
Qed.

Lemma matching_without_ne col v v' (t : list row) :
  v ≠ v' → matching col v' (without col v t) = matching col v' t.
Proof.
  intros Hne. unfold matching, without. induction t as [|x t IH]; [done|].
  rewrite !filter_cons.
  destruct (decide (x !! col ≠ v)) as [Hx|Hx].
  - rewrite filter_cons. by rewrite IH.
  - rewrite decide_False; [done|]. apply dec_stable in Hx. congruence.
Qed.

(** X17: after the DELETE of a stored region, a GET of its NOC is
    answered with 404, and a GET of any other NOC is answered as it was
    before the DELETE. *)
Theorem delete_then_get_region event_attributes d k r :
  matching "NOC" (Some (SStr k)) (regions d) = [r] →
  let d' := stored_after (handle event_attributes (DELETE_region k) d) in
  handle event_attributes (GET_region k) d'
  = (Response 404 (JObj [("error", JStr "404 Not Found: Region not found.")]),
     d', 0)
  ∧ ∀ k', k' ≠ k →
      reply_of (handle event_attributes (GET_region k') d')
      = reply_of (handle event_attributes (GET_region k') d).
Proof.
  intros Hm d'. subst d'.
  rewrite (delete_region_found event_attributes d k r Hm).
  unfold stored_after. simpl. split.
  - apply get_region_absent. simpl. apply matching_without.
  - intros k' Hne. rewrite !get_region_reply. simpl.
    rewrite matching_without_ne; [done|]. congruence.
Qed.

Lemma delete_then_get_region_witness :
  matching "NOC" (Some (SStr "NEW")) (regions fixture_db) = [new_region]
  ∧ let d' := stored_after (handle fixture_attributes (DELETE_region "NEW")
                              fixture_db) in
    handle fixture_attributes (GET_region "NEW") d'
    = (Response 404
         (JObj [("error", JStr "404 Not Found: Region not found.")]), d', 0)
    ∧ ∀ k', k' ≠ "NEW" →
        reply_of (handle fixture_attributes (GET_region k') d')
        = reply_of (handle fixture_attributes (GET_region k') fixture_db).
Proof.
  split; [reflexivity|].
  apply (delete_then_get_region fixture_attributes fixture_db "NEW" new_region).
  reflexivity.
Defined.

(** X18: after a PATCH of a stored region (payload valid, key not named)
    a GET of its NOC is answered with the object the PATCH answered
    with. *)
Theorem patch_then_get_region event_attributes d k r body valid :
  matching "NOC" (Some (SStr k)) (regions d) = [r] →
  r !! "region" ≠ None →
  validate (m_fields Region) true body = inr valid →
  "NOC" ∉ valid.*1 →
  ∃ updated d',
    handle event_attributes (PATCH_region k body) d
    = (Response 200 updated, d', 1)
    ∧ handle event_attributes (GET_region k) d' = (Response 200 updated, d', 0).
Proof.
  intros Hm Hregion Hv Hkey.
  destruct (region_update_run d k r body valid Hm Hregion Hv Hkey) as [h Hrun].
  rewrite (handle_Return event_attributes (PATCH_region k body) d _ _ _ Hrun).
  eexists _, _. split; [done|]. simpl.
  rewrite (get_region_found event_attributes _ k (set_cells valid r)); [done|].
  simpl. apply (matching_put_row _ _ _ _ r Hm).
  rewrite set_cells_other by done. by eapply matching_single_key.
Qed.

Lemma patch_then_get_region_witness :
  (matching "NOC" (Some (SStr "NEW")) (regions fixture_db) = [new_region]
   ∧ new_region !! "region" ≠ None
   ∧ validate (m_fields Region) true (JObj [("notes", JStr "updated")])
     = inr [("notes", Some (SStr "updated"))]
   ∧ "NOC" ∉ [("notes", Some (SStr "updated"))].*1)
  ∧ ∃ updated d',
      handle fixture_attributes
        (PATCH_region "NEW" (JObj [("notes", JStr "updated")])) fixture_db
      = (Response 200 updated, d', 1)
      ∧ handle fixture_attributes (GET_region "NEW") d'
        = (Response 200 updated, d', 0).
Proof.
  assert (H1 : matching "NOC" (Some (SStr "NEW")) (regions fixture_db)
               = [new_region]) by reflexivity.
  assert (H2 : new_region !! "region" ≠ None) by (by vm_compute).
  assert (H3 : validate (m_fields Region) true (JObj [("notes", JStr "updated")])
               = inr [("notes", Some (SStr "updated"))]) by reflexivity.
  assert (H4 : "NOC" ∉ [("notes", Some (SStr "updated"))].*1).
  { apply (bool_decide_unpack _). by vm_compute. }
  split; [by split_and!|].
  exact (patch_then_get_region fixture_attributes fixture_db "NEW" new_region
           (JObj [("notes", JStr "updated")])
           [("notes", Some (SStr "updated"))] H1 H2 H3 H4).
Defined.

(** ** The fixture [new_region] *)

(** X16: the fixture [new_region] of [tests/conftest.py], on a store
    without a region NEW: the test is given the NOC ["NEW"] and a store
    with the row of the fixture appended; whatever the test leaves
    behind, after the fixture no region NEW is stored and every other
    row, and every event, is as the test left it.  With a test that
    changes nothing the store is again what it was. *)
Theorem new_region_fixture_cleans_up test d :
  matching "NOC" (Some (SStr "NEW")) (regions d) = [] →
  let d1 := {| regions := regions d ++ [new_region]; events := events d |} in
  let d2 := test (Some (SStr "NEW")) d1 in
  new_region_fixture test d
  = (Return (),
     {| regions := without "NOC" (Some (SStr "NEW")) (regions d2);
        events := events d2 |})
  ∧ (d2 = d1 → new_region_fixture test d = (Return (), d)).
Proof.
  intros Hm d1 d2.
  assert (Hrow : set_cells [("NOC", Some (SStr "NEW")); ("notes", None);
                            ("region", Some (SStr "A new region"))] (∅ : row)
                 = new_region) by reflexivity.
  assert (Hsetup : app_context new_region_setup d []
            = (Return (0, Some (SStr "NEW")), d1,
               [ {| o_model := Region; o_state := Persistent;
                    o_key := Some (SStr "NEW"); o_dirty := false;
                    o_attrs := new_region |} ])).
  { unfold app_context, new_region_setup, construct. rewrite Hrow.
    unfold bind at 1. simpl. unfold bind at 1. simpl.
    unfold bind at 1, session_commit. simpl.
    rewrite (flush_pending_keyed Region new_region None (SStr "NEW"));
      [done|done|done| |done].
    intros f Hf Hreq. simpl in Hf.
    repeat (apply elem_of_cons in Hf as [->|Hf]); try done.
    by apply elem_of_nil in Hf. }
  assert (Hfinal : new_region_fixture test d
            = (Return (),
               {| regions := without "NOC" (Some (SStr "NEW")) (regions d2);
                  events := events d2 |})).
  { unfold new_region_fixture. rewrite Hsetup. fold d2.
    unfold app_context, new_region_teardown, exists_where.
    rewrite filter_by_column; [|apply NOC_column]. rewrite bind_ret.
    unfold bind at 2. simpl. unfold bind at 1. simpl.
    destruct (matching "NOC" (Some (SStr "NEW")) (regions d2)) as [|r l] eqn:Hm2.
    - simpl. f_equal.
      unfold without. rewrite (filter_others _ _ _ (matching_nil _ _ _ Hm2)).
      by destruct d2.
    - rewrite bool_decide_eq_true_2 by done.
      unfold bind at 1, session_delete. unfold bind at 1. simpl.
      unfold session_commit. simpl. unfold flush_object. simpl. done. }
  split; [exact Hfinal|].
  intros Heq. rewrite Hfinal, Heq. unfold d1. simpl.
  rewrite without_appended; [by destruct d|done|done].
Qed.

Lemma new_region_fixture_cleans_up_witness :
  matching "NOC" (Some (SStr "NEW")) (regions empty_db) = []
  ∧ let d1 := {| regions := regions empty_db ++ [new_region];
                 events := events empty_db |} in
    let d2 := (λ _ d, stored_after (handle fixture_attributes
                                      (DELETE_region "NEW") d))
                (Some (SStr "NEW")) d1 in
    new_region_fixture
      (λ _ d, stored_after (handle fixture_attributes (DELETE_region "NEW") d))
      empty_db
    = (Return (),
       {| regions := without "NOC" (Some (SStr "NEW")) (regions d2);
          events := events d2 |})
    ∧ (d2 = d1 →
       new_region_fixture
         (λ _ d, stored_after (handle fixture_attributes (DELETE_region "NEW") d))
         empty_db
       = (Return (), empty_db)).
Proof.
  split; [reflexivity|].
  apply (new_region_fixture_cleans_up
           (λ _ d, stored_after (handle fixture_attributes
                                   (DELETE_region "NEW") d)) empty_db).
  reflexivity.
Defined.
